(** * A shallow embedding of the sols.bet settlement contracts

    The repository holds several generations of one Anchor program:
    - [src/contract/lib.rs]        two-phase [place_bet] / [settle_game],
                                   [credit_win] / [debit_loss];
    - [src/contract/airdrop.rs]    [bet_and_settle] with the gem reward loop;
    - [src/contract/batch-settle.rs] [batch_settle] over signed profits;
    - [src/contract/src/lib.rs]    the v2 program: pause configuration,
                                   [deposit], [withdraw], [bet_and_settle],
                                   [batch_settle] over stakes and payouts.

    All of them run against one ledger: lamport balances of accounts
    (held by the host), the typed account data of user vaults and of the
    house vault, and the pause configuration.  Each instruction handler is a
    computation in a small state and error monad over that ledger; the host
    runs an instruction atomically ([invoke]): on an error every tentative
    change is discarded.

    Arithmetic follows the Rust types: [u64], [u32] and [i64] values are [Z]
    with their range; the bare operators [+=], [-=] and unary [-] abort the
    instruction on overflow (Anchor workspaces build with
    [overflow-checks = true]), [checked_add] returns the typed [Overflow]
    error, [saturating_sub] clamps at zero, [as u8] keeps the low 8 bits and
    [/] on [i64] truncates toward zero. *)

From Stdlib Require Import ZArith List String Bool Lia.
Import ListNotations.
Open Scope string_scope.
Open Scope Z_scope.

(** ** Machine integers *)

Definition U64_MAX : Z := 2 ^ 64 - 1.
Definition U32_MAX : Z := 2 ^ 32 - 1.
Definition I64_MIN : Z := - 2 ^ 63.
Definition I64_MAX : Z := 2 ^ 63 - 1.

Definition in_u64 (x : Z) : bool := (0 <=? x) && (x <=? U64_MAX).
Definition in_i64 (x : Z) : bool := (I64_MIN <=? x) && (x <=? I64_MAX).

(** [x.saturating_sub(y)] on [u64]. *)
Definition saturating_sub (x y : Z) : Z := Z.max 0 (x - y).

(** [x as u8]: the low eight bits, two's complement. *)
Definition as_u8 (x : Z) : Z := x mod 256.

(** ** Errors *)

(** [VaultError] of the v2 program (a superset of the older ones). *)
Inductive VaultError :=
| InvalidAmount
| GamesInProgress
| InsufficientFunds
| NoActiveGame
| SettlementMismatch
| Unauthorized
| HouseInsufficient
| Overflow
| BatchTooLarge
| MaintenancePaused
| EmergencyPaused
| InvalidMultiplier.

(** What an instruction can fail with: a [VaultError] from [require!] or
    [ok_or], a panic of the Rust code (arithmetic overflow, index out of
    bounds), a failing system transfer, or Anchor's account validation that
    runs before the handler. *)
Inductive ProgramError :=
| Vault (e : VaultError)
| Panic
| TransferFailed
| AccountNotInitialized
| AccountAlreadyInitialized
| ConstraintHasOne
| ConstraintAddress.

Inductive result (A : Type) :=
| Ok (a : A)
| Err (e : ProgramError).
Arguments Ok {A} a.
Arguments Err {A} e.

(** ** Accounts and ledger *)

Definition Pubkey := string.

Definition pk_eqb (a b : Pubkey) : bool := String.eqb a b.

(** The hard-coded identities of the sources. *)
Definition AUTHORITY_PUBKEY : Pubkey := "CBKPbzTqdz4TMa1qoGCAokuSASGkAXtKZ9EWovwnSSfG".
Definition ADMIN : Pubkey := "4y1oXmheqD5VNScoNwLH17WQQExXSxBasH6TTwCb4iN5".
Definition MULTISIG : Pubkey := "BMprzPNF9FTni4mJWwCJnk91ZzhKdxGCx7BwPckMRzBt".

(** The house vault is the PDA [b"house_vault"]; [initialize_house] is the
    only way to create a [HouseVault] account, so there is one. *)
Definition HOUSE : Pubkey := "house_vault".

Record UserVault := mkUserVault {
  owner : Pubkey;
  locked_amount : Z;   (* u64 *)
  active_games : Z;    (* u32 *)
  accum_wager : Z      (* u64 *)
}.

Record PauseConfig := mkPauseConfig {
  maintenance_pause : bool;
  maintenance_start_time : Z;       (* i64 *)
  maintenance_duration_hours : Z;   (* u8 *)
  emergency_pause : bool
}.

Record Ledger := mkLedger {
  lamports : Pubkey -> Z;              (* host-held balance of every account *)
  vaults : Pubkey -> option UserVault; (* UserVault data, None: no account *)
  total_volume : Z;                    (* HouseVault.total_volume, u64 *)
  pause_config : PauseConfig
}.

Definition upd {A} (f : Pubkey -> A) (k : Pubkey) (v : A) : Pubkey -> A :=
  fun k' => if pk_eqb k k' then v else f k'.

(** ** The instruction monad *)

Definition M (A : Type) := Ledger -> result (A * Ledger).

Definition ret {A} (a : A) : M A := fun s => Ok (a, s).
Definition bind {A B} (m : M A) (k : A -> M B) : M B :=
  fun s => match m s with
           | Ok (a, s') => k a s'
           | Err e => Err e
           end.

Notation "x <- m ;; k" := (bind m (fun x => k))
  (at level 61, m at next level, right associativity).
Notation "m ;;; k" := (bind m (fun _ => k))
  (at level 61, right associativity).

Definition fail {A} (e : ProgramError) : M A := fun _ => Err e.

(** [require!(cond, VaultError::e)] *)
Definition require (b : bool) (e : VaultError) : M unit :=
  if b then ret tt else fail (Vault e).

Definition get : M Ledger := fun s => Ok (s, s).
Definition put (s : Ledger) : M unit := fun _ => Ok (tt, s).

Definition get_lamports (k : Pubkey) : M Z := fun s => Ok (lamports s k, s).

Definition set_lamports (k : Pubkey) (v : Z) : M unit :=
  fun s => Ok (tt, mkLedger (upd (lamports s) k v) (vaults s)
                            (total_volume s) (pause_config s)).

(** [**info.try_borrow_mut_lamports()? -= x] *)
Definition sub_lamports (k : Pubkey) (x : Z) : M unit :=
  b <- get_lamports k ;;
  if in_u64 (b - x) then set_lamports k (b - x) else fail Panic.

(** [**info.try_borrow_mut_lamports()? += x] *)
Definition add_lamports (k : Pubkey) (x : Z) : M unit :=
  b <- get_lamports k ;;
  if in_u64 (b + x) then set_lamports k (b + x) else fail Panic.

(** The [Account<'info, UserVault>] deserialisation done by Anchor. *)
Definition load_vault (k : Pubkey) : M UserVault :=
  fun s => match vaults s k with
           | Some v => Ok (v, s)
           | None => Err AccountNotInitialized
           end.

Definition store_vault (k : Pubkey) (v : UserVault) : M unit :=
  fun s => Ok (tt, mkLedger (lamports s) (upd (vaults s) k (Some v))
                            (total_volume s) (pause_config s)).

Definition get_total_volume : M Z := fun s => Ok (total_volume s, s).

Definition set_total_volume (v : Z) : M unit :=
  fun s => Ok (tt, mkLedger (lamports s) (vaults s) v (pause_config s)).

Definition get_pause_config : M PauseConfig := fun s => Ok (pause_config s, s).

Definition set_pause_config (c : PauseConfig) : M unit :=
  fun s => Ok (tt, mkLedger (lamports s) (vaults s) (total_volume s) c).

(** [a.checked_add(b).ok_or(VaultError::Overflow)?] on [u64]. *)
Definition checked_add_u64 (a b : Z) : M Z :=
  if a + b <=? U64_MAX then ret (a + b) else fail (Vault Overflow).

(** The host's atomic invocation envelope: a failed instruction leaves the
    ledger as it was. *)
Definition invoke (m : M unit) (s : Ledger) : result unit * Ledger :=
  match m s with
  | Ok (_, s') => (Ok tt, s')
  | Err e => (Err e, s)
  end.

(** [system_instruction::transfer(from, to, amount)] invoked through the
    system program; it fails when [from] cannot cover [amount]. *)
Definition system_transfer (from to : Pubkey) (amount : Z) : M unit :=
  b <- get_lamports from ;;
  if b <? amount then fail TransferFailed else
  sub_lamports from amount ;;;
  t <- get_lamports to ;;
  if in_u64 (t + amount) then add_lamports to amount else fail TransferFailed.

(** ** The v2 program, [src/contract/src/lib.rs] *)
Module V2.

(** The pause check at the head of every balance-moving handler: the
    maintenance pause is cleared on a local clone of the configuration
    (never written back) once [elapsed_hours >= maintenance_duration_hours],
    with [elapsed_hours = ((now - start) / 3600) as u8]; [now] is
    [Clock::get()?.unix_timestamp]. *)
Definition pause_gate (now : Z) : M unit :=
  pc <- get_pause_config ;;
  pc' <- (if maintenance_pause pc then
            let elapsed_seconds := now - maintenance_start_time pc in
            if negb (in_i64 elapsed_seconds) then fail Panic else
            let elapsed_hours := as_u8 (Z.quot elapsed_seconds 3600) in
            if maintenance_duration_hours pc <=? elapsed_hours
            then ret (mkPauseConfig false 0 (maintenance_duration_hours pc)
                                    (emergency_pause pc))
            else ret pc
          else ret pc) ;;
  require (negb (emergency_pause pc')) EmergencyPaused ;;;
  require (negb (maintenance_pause pc')) MaintenancePaused.

(** [deposit]; the accounts [vault] ([has_one = owner]), [owner] and the
    paying [user] are validated by Anchor before the handler runs. *)
Definition deposit (now : Z) (owner_key user vault : Pubkey) (amount : Z)
  : M unit :=
  v <- load_vault vault ;;
  (if pk_eqb (owner v) owner_key then ret tt else fail ConstraintHasOne) ;;;
  require (0 <? amount) InvalidAmount ;;;
  pause_gate now ;;;
  system_transfer user vault amount.

(** [withdraw] *)
Definition withdraw (now : Z) (owner_key vault : Pubkey) (amount : Z)
  : M unit :=
  v <- load_vault vault ;;
  (if pk_eqb (owner v) owner_key then ret tt else fail ConstraintHasOne) ;;;
  require (0 <? amount) InvalidAmount ;;;
  pause_gate now ;;;
  require (active_games v =? 0) GamesInProgress ;;;
  bal <- get_lamports vault ;;
  require (amount <=? bal) InsufficientFunds ;;;
  sub_lamports vault amount ;;;
  add_lamports owner_key amount.

(** The stake/payout block shared verbatim by [bet_and_settle] and by each
    iteration of [batch_settle]; [vault] is the vault account's key. *)
Definition settle_entry (vault : Pubkey) (stake payout : Z) : M unit :=
  (if 0 <? stake then
     bal <- get_lamports vault ;;
     require (stake <=? bal) InsufficientFunds
   else ret tt) ;;;
  (if 0 <? stake then
     tv <- get_total_volume ;;
     tv' <- checked_add_u64 tv stake ;;
     set_total_volume tv'
   else ret tt) ;;;
  if stake =? 0 then
    (if 0 <? payout then
       hb <- get_lamports HOUSE ;;
       require (payout <=? hb) HouseInsufficient ;;;
       sub_lamports HOUSE payout ;;;
       add_lamports vault payout
     else ret tt)
  else if stake <? payout then
    let house_payout := payout - stake in
    hb <- get_lamports HOUSE ;;
    require (house_payout <=? hb) HouseInsufficient ;;;
    sub_lamports HOUSE house_payout ;;;
    add_lamports vault house_payout
  else if payout <? stake then
    let loss := stake - payout in
    bal <- get_lamports vault ;;
    require (loss <=? bal) InsufficientFunds ;;;
    sub_lamports vault loss ;;;
    add_lamports HOUSE loss
  else ret tt.

(** [bet_and_settle]; [bet_id] and [game_id] only reach the log. *)
Definition bet_and_settle (now : Z) (authority vault : Pubkey)
  (stake payout : Z) (bet_id : string) (game_id : Z) (gem_data : list Z)
  : M unit :=
  _ <- load_vault vault ;;
  require (Nat.eqb (List.length gem_data) 7) InvalidAmount ;;;
  pause_gate now ;;;
  require (pk_eqb authority ADMIN) Unauthorized ;;;
  settle_entry vault stake payout.

(** [ctx.remaining_accounts[i]]: out of range panics. *)
Definition index (remaining : list Pubkey) (i : nat) : M Pubkey :=
  match nth_error remaining i with
  | Some k => ret k
  | None => fail Panic
  end.

(** The loop of [batch_settle], entry [i] against [remaining_accounts[i]]. *)
Fixpoint batch_items (i : nat) (remaining : list Pubkey) (items : list (Z * Z))
  : M unit :=
  match items with
  | [] => ret tt
  | (stake, payout) :: rest =>
      vault_info <- index remaining i ;;
      settle_entry vault_info stake payout ;;;
      batch_items (S i) remaining rest
  end.

(** [batch_settle]; the five-way [zip] runs over [combine stakes payouts]
    since all five lengths were checked equal. *)
Definition batch_settle (now : Z) (authority : Pubkey)
  (stakes payouts : list Z) (bet_ids : list string) (game_ids : list Z)
  (gem_datas : list (list Z)) (remaining_accounts : list Pubkey) : M unit :=
  let n := List.length stakes in
  require (Nat.leb n 10) BatchTooLarge ;;;
  require (Nat.ltb 0 n) InvalidAmount ;;;
  require (Nat.eqb n (List.length payouts)) InvalidAmount ;;;
  require (Nat.eqb n (List.length bet_ids)) InvalidAmount ;;;
  require (Nat.eqb n (List.length game_ids)) InvalidAmount ;;;
  require (Nat.eqb n (List.length gem_datas)) InvalidAmount ;;;
  require (forallb (fun d => Nat.eqb (List.length d) 7) gem_datas) InvalidAmount ;;;
  pause_gate now ;;;
  require (pk_eqb authority ADMIN) Unauthorized ;;;
  require (Nat.eqb (List.length remaining_accounts) n) InvalidAmount ;;;
  batch_items 0 remaining_accounts (combine stakes payouts).

(** [start_maintenance_pause] *)
Definition start_maintenance_pause (now : Z) (authority : Pubkey) : M unit :=
  require (pk_eqb authority MULTISIG || pk_eqb authority ADMIN) Unauthorized ;;;
  pc <- get_pause_config ;;
  set_pause_config (mkPauseConfig true now (maintenance_duration_hours pc)
                                  (emergency_pause pc)).

(** [emergency_pause] *)
Definition emergency_pause (authority : Pubkey) : M unit :=
  require (pk_eqb authority MULTISIG) Unauthorized ;;;
  pc <- get_pause_config ;;
  set_pause_config (mkPauseConfig false (maintenance_start_time pc)
                                  (maintenance_duration_hours pc) true).

(** [unpause] *)
Definition unpause (authority : Pubkey) : M unit :=
  require (pk_eqb authority MULTISIG) Unauthorized ;;;
  pc <- get_pause_config ;;
  set_pause_config (mkPauseConfig false 0 (maintenance_duration_hours pc) false).

End V2.

(** [#[account(signer, address = AUTHORITY_PUBKEY)]]: Anchor's address
    constraint on the authority account of the older programs, checked
    before the handler runs. *)
Definition check_authority_address (authority : Pubkey) : M unit :=
  if pk_eqb authority AUTHORITY_PUBKEY then ret tt else fail ConstraintAddress.

(** Anchor's [init]: the account must not exist yet. *)
Definition check_uninitialized (k : Pubkey) : M unit :=
  fun s => match vaults s k with
           | Some _ => Err AccountAlreadyInitialized
           | None => Ok (tt, s)
           end.

(** [initialize_vault] (all generations): Anchor's [init] refuses an
    existing account and funds the new one with [rent] lamports from the
    payer [user]. *)
Definition initialize_vault (user vault : Pubkey) (rent : Z) : M unit :=
  check_uninitialized vault ;;;
  system_transfer user vault rent ;;;
  store_vault vault (mkUserVault user 0 0 0).

(** ** The two-phase program, [src/contract/lib.rs] *)
Module V1.

(** [place_bet] *)
Definition place_bet (authority vault : Pubkey) (stake : Z) : M unit :=
  v <- load_vault vault ;;
  check_authority_address authority ;;;
  require (0 <? stake) InvalidAmount ;;;
  require (pk_eqb authority AUTHORITY_PUBKEY) Unauthorized ;;;
  bal <- get_lamports vault ;;
  let available := saturating_sub bal (locked_amount v) in
  require (stake <=? available) InsufficientFunds ;;;
  locked' <- checked_add_u64 (locked_amount v) stake ;;
  (* vault.active_games += 1 on u32 *)
  (if active_games v + 1 <=? U32_MAX then ret tt else fail Panic) ;;;
  store_vault vault (mkUserVault (owner v) locked' (active_games v + 1)
                                 (accum_wager v)) ;;;
  sub_lamports vault stake ;;;
  add_lamports HOUSE stake.

(** [settle_game] *)
Definition settle_game (authority vault : Pubkey) (stake payout : Z) : M unit :=
  v <- load_vault vault ;;
  check_authority_address authority ;;;
  require (0 <? stake) InvalidAmount ;;;
  require (pk_eqb authority AUTHORITY_PUBKEY) Unauthorized ;;;
  require (0 <? active_games v) NoActiveGame ;;;
  require (stake <=? locked_amount v) SettlementMismatch ;;;
  store_vault vault (mkUserVault (owner v) (locked_amount v - stake)
                                 (active_games v - 1) (accum_wager v)) ;;;
  if 0 <? payout then
    hb <- get_lamports HOUSE ;;
    require (payout <=? hb) HouseInsufficient ;;;
    sub_lamports HOUSE payout ;;;
    add_lamports vault payout
  else ret tt.

(** [credit_win] *)
Definition credit_win (authority vault : Pubkey) (amount : Z) : M unit :=
  _ <- load_vault vault ;;
  check_authority_address authority ;;;
  require (0 <? amount) InvalidAmount ;;;
  require (pk_eqb authority AUTHORITY_PUBKEY) Unauthorized ;;;
  hb <- get_lamports HOUSE ;;
  require (amount <=? hb) HouseInsufficient ;;;
  sub_lamports HOUSE amount ;;;
  add_lamports vault amount.

(** [debit_loss] *)
Definition debit_loss (authority vault : Pubkey) (amount : Z) : M unit :=
  _ <- load_vault vault ;;
  check_authority_address authority ;;;
  require (0 <? amount) InvalidAmount ;;;
  require (pk_eqb authority AUTHORITY_PUBKEY) Unauthorized ;;;
  bal <- get_lamports vault ;;
  require (amount <=? bal) InsufficientFunds ;;;
  sub_lamports vault amount ;;;
  add_lamports HOUSE amount.

End V1.

(** ** The reward program, [src/contract/airdrop.rs] *)
Module Airdrop.

Inductive GemType := Garnet | Amethyst | Topaz | Sapphire | Emerald | Ruby | Diamond.

(** [let threshold = 100_000_000u64] (0.1 SOL) *)
Definition THRESHOLD : Z := 100000000.

(** The cascade over [sub_probs = [150, 230, 270, 290, 297, 299, 300]]. *)
Definition classify (award_roll : Z) : GemType :=
  if award_roll <? 150 then Garnet
  else if award_roll <? 230 then Amethyst
  else if award_roll <? 270 then Topaz
  else if award_roll <? 290 then Sapphire
  else if award_roll <? 297 then Emerald
  else if award_roll <? 299 then Ruby
  else Diamond.

(** The [while vault.accum_wager >= threshold] loop.  [roll_hash rc] is the
    [u64] read from the first eight bytes of
    [keccak(base_hash, rc.to_le_bytes())], the base hash being fixed per
    call from the instruction data, the slot and the wager.  The state is
    [(accum_wager, roll_count, awarded_gems)]; [roll_count += 1] is on
    [u32].  [fuel] bounds the recursion only: [gem_rolls] gives one more
    unit of fuel than the number of times [threshold] fits in the start
    value, and every iteration subtracts [threshold]. *)
Fixpoint gem_loop (fuel : nat) (roll_hash : Z -> Z) (multiplier : Z)
  (accum roll_count : Z) (gems : list GemType)
  : result (Z * Z * list GemType) :=
  match fuel with
  | O => Ok (accum, roll_count, gems)
  | S fuel' =>
      if THRESHOLD <=? accum then
        let accum' := accum - THRESHOLD in
        let roll := roll_hash roll_count mod 1000 in
        let base_award_prob := 300 in
        let effective_award_prob := base_award_prob * multiplier / 100 in
        let nothing_prob := 1000 - Z.min effective_award_prob 1000 in
        if roll <? nothing_prob then
          if roll_count + 1 <=? U32_MAX
          then gem_loop fuel' roll_hash multiplier accum' (roll_count + 1) gems
          else Err Panic
        else
          let award_roll := (roll - nothing_prob) * 300 / effective_award_prob in
          let gems' := (gems ++ [classify award_roll])%list in
          if roll_count + 1 <=? U32_MAX then
            if 100 <? roll_count + 1
            then Ok (accum', roll_count + 1, gems')
            else gem_loop fuel' roll_hash multiplier accum' (roll_count + 1) gems'
          else Err Panic
      else Ok (accum, roll_count, gems)
  end.

(** The loop as entered, [roll_count = 0] and no gems yet. *)
Definition gem_rolls (roll_hash : Z -> Z) (multiplier accum : Z)
  : result (Z * Z * list GemType) :=
  gem_loop (S (Z.to_nat (accum / THRESHOLD))) roll_hash multiplier accum 0 [].

Definition lift {A} (r : result A) : M A :=
  match r with Ok a => ret a | Err e => fail e end.

(** [bet_and_settle(stake, payout, multiplier)] *)
Definition bet_and_settle (authority vault : Pubkey) (stake payout multiplier : Z)
  (roll_hash : Z -> Z) : M unit :=
  v <- load_vault vault ;;
  check_authority_address authority ;;;
  require (0 <? stake) InvalidAmount ;;;
  require ((50 <=? multiplier) && (multiplier <=? 300)) InvalidMultiplier ;;;
  require (pk_eqb authority AUTHORITY_PUBKEY) Unauthorized ;;;
  bal <- get_lamports vault ;;
  let available := saturating_sub bal (locked_amount v) in
  require (stake <=? available) InsufficientFunds ;;;
  locked1 <- checked_add_u64 (locked_amount v) stake ;;
  sub_lamports vault stake ;;;
  add_lamports HOUSE stake ;;;
  let locked2 := locked1 - stake in
  (if 0 <? payout then
     hb <- get_lamports HOUSE ;;
     require (payout <=? hb) HouseInsufficient ;;;
     sub_lamports HOUSE payout ;;;
     add_lamports vault payout
   else ret tt) ;;;
  let effective_wager := stake in
  (* vault.accum_wager += effective_wager on u64 *)
  (if accum_wager v + effective_wager <=? U64_MAX then ret tt else fail Panic) ;;;
  r <- lift (gem_rolls roll_hash multiplier (accum_wager v + effective_wager)) ;;
  let '(accum', _, _) := r in
  store_vault vault (mkUserVault (owner v) locked2 (active_games v) accum').

End Airdrop.

(** ** The profit-list batch, [src/contract/batch-settle.rs] *)
Module BatchProfit.

(** A remaining account as the handler sees it. *)
Record AccountRef := mkAccountRef { key : Pubkey; is_writable : bool }.

Section WithPda.

(** [Pubkey::find_program_address(&[b"vault", user], program_id).0] *)
Variable find_vault_pda : Pubkey -> Pubkey.

(** The movement for one entry, [delta = profits[i]] on [i64]. *)
Definition settle_profit (vault : Pubkey) (delta : Z) : M unit :=
  if delta <? 0 then
    (* let lamports = (-delta) as u64; unary minus on i64 *)
    (if in_i64 (- delta) then ret tt else fail Panic) ;;;
    let lamports := - delta in
    sub_lamports vault lamports ;;;
    add_lamports HOUSE lamports
  else if 0 <? delta then
    let lamports := delta in
    hb <- get_lamports HOUSE ;;
    require (lamports <=? hb) HouseInsufficient ;;;
    sub_lamports HOUSE lamports ;;;
    add_lamports vault lamports
  else ret tt.

Fixpoint profit_items (i : nat) (remaining : list AccountRef)
  (profits : list Z) (users : list Pubkey) : M unit :=
  match users with
  | [] => ret tt
  | user_pk :: rest =>
      let expected_pda := find_vault_pda user_pk in
      vault_info <- (match nth_error remaining i with
                     | Some a => ret a | None => fail Panic end) ;;
      require (pk_eqb (key vault_info) expected_pda) Unauthorized ;;;
      require (is_writable vault_info) Unauthorized ;;;
      delta <- (match nth_error profits i with
                | Some d => ret d | None => fail Panic end) ;;
      settle_profit (key vault_info) delta ;;;
      profit_items (S i) remaining profits rest
  end.

(** [batch_settle(users, profits)] *)
Definition batch_settle (authority : Pubkey) (users : list Pubkey)
  (profits : list Z) (remaining : list AccountRef) : M unit :=
  check_authority_address authority ;;;
  require (Nat.eqb (List.length users) (List.length profits)) InvalidAmount ;;;
  require (Nat.eqb (List.length remaining) (List.length users)) InvalidAmount ;;;
  profit_items 0 remaining profits users.

End WithPda.

End BatchProfit.

(** ** The ledger as a transition system *)

(** One instruction of any generation, with its arguments.  The lifecycle
    of the pause configuration account itself ([initialize_pause_config],
    [close_pause_config]) is not among them: the ledger always holds one
    pause configuration. *)
Inductive Op :=
| OpInitializeVault (user vault : Pubkey) (rent : Z)
| OpDeposit (now : Z) (owner_key user vault : Pubkey) (amount : Z)
| OpWithdraw (now : Z) (owner_key vault : Pubkey) (amount : Z)
| OpPlaceBet (authority vault : Pubkey) (stake : Z)
| OpSettleGame (authority vault : Pubkey) (stake payout : Z)
| OpCreditWin (authority vault : Pubkey) (amount : Z)
| OpDebitLoss (authority vault : Pubkey) (amount : Z)
| OpBetAndSettle (now : Z) (authority vault : Pubkey) (stake payout : Z)
    (bet_id : string) (game_id : Z) (gem_data : list Z)
| OpBetAndSettleGems (authority vault : Pubkey) (stake payout multiplier : Z)
    (roll_hash : Z -> Z)
| OpBatchSettle (now : Z) (authority : Pubkey) (stakes payouts : list Z)
    (bet_ids : list string) (game_ids : list Z) (gem_datas : list (list Z))
    (remaining_accounts : list Pubkey)
| OpBatchSettleProfits (find_vault_pda : Pubkey -> Pubkey) (authority : Pubkey)
    (users : list Pubkey) (profits : list Z)
    (remaining : list BatchProfit.AccountRef)
| OpStartMaintenancePause (now : Z) (authority : Pubkey)
| OpEmergencyPause (authority : Pubkey)
| OpUnpause (authority : Pubkey).

Definition exec (op : Op) : M unit :=
  match op with
  | OpInitializeVault user vault rent => initialize_vault user vault rent
  | OpDeposit now o u v a => V2.deposit now o u v a
  | OpWithdraw now o v a => V2.withdraw now o v a
  | OpPlaceBet au v st => V1.place_bet au v st
  | OpSettleGame au v st p => V1.settle_game au v st p
  | OpCreditWin au v a => V1.credit_win au v a
  | OpDebitLoss au v a => V1.debit_loss au v a
  | OpBetAndSettle now au v st p b g d => V2.bet_and_settle now au v st p b g d
  | OpBetAndSettleGems au v st p m h => Airdrop.bet_and_settle au v st p m h
  | OpBatchSettle now au st p b g d r => V2.batch_settle now au st p b g d r
  | OpBatchSettleProfits f au us pr r => BatchProfit.batch_settle f au us pr r
  | OpStartMaintenancePause now au => V2.start_maintenance_pause now au
  | OpEmergencyPause au => V2.emergency_pause au
  | OpUnpause au => V2.unpause au
  end.

(** Ledgers reachable from one with no user vault yet; a failed
    instruction changes nothing, so only successful ones are steps. *)
Inductive reachable : Ledger -> Prop :=
| reach_init s : (forall k, vaults s k = None) -> reachable s
| reach_step s op s' : reachable s -> exec op s = Ok (tt, s') -> reachable s'.

(** ** Concrete runs *)

Fixpoint run_ops (ops : list Op) (s : Ledger) : option Ledger :=
  match ops with
  | [] => Some s
  | op :: rest =>
      match exec op s with
      | Ok (_, s') => run_ops rest s'
      | Err _ => None
      end
  end.

(** A ledger before any vault exists: alice holds 0.002 SOL, the house 1 SOL;
    nothing is paused. *)
Definition demo_ledger : Ledger :=
  mkLedger (fun k => if pk_eqb k "alice" then 2000000
                     else if pk_eqb k HOUSE then 1000000000 else 0)
           (fun _ => None) 0 (mkPauseConfig false 0 4 false).

(** alice creates her vault with 0.001 SOL of rent, then the backend places
    a bet of the whole vault balance. *)
Definition locked_trace : list Op :=
  [OpInitializeVault "alice" "vault_alice" 1000000;
   OpPlaceBet AUTHORITY_PUBKEY "vault_alice" 1000000].

Definition locked_state : Ledger :=
  match run_ops locked_trace demo_ledger with
  | Some s => s
  | None => demo_ledger
  end.

(** Three vaults of a batch: [vault_a] and [vault_c] hold 5000 lamports,
    [vault_b] only 100; the house holds 1000000. *)
Definition batch_ledger : Ledger :=
  mkLedger (fun k => if pk_eqb k "vault_a" then 5000
                     else if pk_eqb k "vault_b" then 100
                     else if pk_eqb k "vault_c" then 5000
                     else if pk_eqb k HOUSE then 1000000 else 0)
           (fun k => if pk_eqb k "vault_a" then Some (mkUserVault "a" 0 0 0)
                     else if pk_eqb k "vault_b" then Some (mkUserVault "b" 0 0 0)
                     else if pk_eqb k "vault_c" then Some (mkUserVault "c" 0 0 0)
                     else None)
           0 (mkPauseConfig false 0 4 false).

(** bob's vault holds [vault_bal] lamports, the house [house_bal]; the
    house volume is [volume]; nothing is paused. *)
Definition bob_ledger (vault_bal house_bal volume : Z) : Ledger :=
  mkLedger (fun k => if pk_eqb k "vault_bob" then vault_bal
                     else if pk_eqb k HOUSE then house_bal else 0)
           (fun k => if pk_eqb k "vault_bob" then Some (mkUserVault "bob" 0 0 0)
                     else None)
           volume (mkPauseConfig false 0 4 false).

(** bob's wallet holds 1000000 lamports, his vault 5000, the house 1000000;
    the pause configuration is [pc]. *)
Definition paused_ledger (pc : PauseConfig) : Ledger :=
  mkLedger (fun k => if pk_eqb k "bob" then 1000000
                     else if pk_eqb k "vault_bob" then 5000
                     else if pk_eqb k HOUSE then 1000000 else 0)
           (fun k => if pk_eqb k "vault_bob" then Some (mkUserVault "bob" 0 0 0)
                     else None)
           0 pc.

(** A vault of the two-phase program: alice's vault holds [bal] lamports,
    with [locked] lamports locked over [active] games; the house holds
    1 SOL. *)
Definition v1_ledger (bal locked active : Z) : Ledger :=
  mkLedger (fun k => if pk_eqb k "vault_alice" then bal
                     else if pk_eqb k HOUSE then 1000000000 else 0)
           (fun k => if pk_eqb k "vault_alice"
                     then Some (mkUserVault "alice" locked active 0) else None)
           0 (mkPauseConfig false 0 4 false).

(** Seven bytes of gem data, as [bet_and_settle] and [batch_settle] want. *)
Definition gems7 : list Z := [0; 0; 0; 0; 0; 0; 0].

(** ** Vault funding in the older generations

    [deposit] and [withdraw] are the same code in [src/contract/lib.rs],
    [src/contract/airdrop.rs] and [src/contract/batch-settle.rs]: the v2
    handlers without the pause check. *)
Module Legacy.

(** [deposit]; [vault] is [has_one = owner], [user] pays. *)
Definition deposit (owner_key user vault : Pubkey) (amount : Z) : M unit :=
  v <- load_vault vault ;;
  (if pk_eqb (owner v) owner_key then ret tt else fail ConstraintHasOne) ;;;
  require (0 <? amount) InvalidAmount ;;;
  system_transfer user vault amount.

(** [withdraw] *)
Definition withdraw (owner_key vault : Pubkey) (amount : Z) : M unit :=
  v <- load_vault vault ;;
  (if pk_eqb (owner v) owner_key then ret tt else fail ConstraintHasOne) ;;;
  require (0 <? amount) InvalidAmount ;;;
  require (active_games v =? 0) GamesInProgress ;;;
  bal <- get_lamports vault ;;
  require (amount <=? bal) InsufficientFunds ;;;
  sub_lamports vault amount ;;;
  add_lamports owner_key amount.

End Legacy.

(** ** Administration views of the v2 program *)
Module V2Admin.

(** What [get_pause_status] logs: the [EMERGENCY_PAUSE],
    [MAINTENANCE_PAUSE] and [RESUME_TIME] lines of its four branches. *)
Inductive PauseStatus :=
| StatusEmergency                             (* RESUME_TIME:indefinite *)
| StatusMaintenance (remaining_hours : Z)     (* RESUME_TIME:{} hours *)
| StatusMaintenanceComplete                   (* Maintenance complete *)
| StatusActive.                               (* All operations active *)

(** [get_pause_status]: [elapsed_hours] is an [i64] quotient,
    [remaining_hours = duration.saturating_sub(elapsed_hours as u8)] on
    [u8]; the ledger is only read. *)
Definition get_pause_status (now : Z) : M PauseStatus :=
  config <- get_pause_config ;;
  if emergency_pause config then ret StatusEmergency
  else if maintenance_pause config then
    let d := now - maintenance_start_time config in
    if negb (in_i64 d) then fail Panic else
    let elapsed_hours := Z.quot d 3600 in
    let remaining_hours :=
      saturating_sub (maintenance_duration_hours config) (as_u8 elapsed_hours) in
    if 0 <? remaining_hours then ret (StatusMaintenance remaining_hours)
    else ret StatusMaintenanceComplete
  else ret StatusActive.

(** The authority fields of the [HouseVault] account. *)
Record HouseAuthorities := mkHouseAuthorities {
  multisig_authority : Pubkey;
  admin_authority : Pubkey
}.

(** [initialize_house] stores the two hard-coded keys. *)
Definition initial_authorities : HouseAuthorities :=
  mkHouseAuthorities MULTISIG ADMIN.

(** [change_authority(new_multisig, new_admin)] on the house vault's
    authority fields; the signer is compared with the hard-coded multisig
    key. *)
Definition change_authority (authority : Pubkey) (hv : HouseAuthorities)
  (new_multisig new_admin : option Pubkey) : result HouseAuthorities :=
  if negb (pk_eqb authority MULTISIG) then Err (Vault Unauthorized) else
  let hv1 := match new_multisig with
             | Some k => mkHouseAuthorities k (admin_authority hv)
             | None => hv
             end in
  let hv2 := match new_admin with
             | Some k => mkHouseAuthorities (multisig_authority hv1) k
             | None => hv1
             end in
  Ok hv2.

End V2Admin.

(** ** Ledger-wide quantities *)

(** The lamports held by a list of accounts. *)
Fixpoint sum_over (f : Pubkey -> Z) (ks : list Pubkey) : Z :=
  match ks with
  | [] => 0
  | k :: rest => f k + sum_over f rest
  end.

Definition sum_lamports (ks : list Pubkey) (s : Ledger) : Z :=
  sum_over (lamports s) ks.

(** The accounts whose lamports an instruction may move, besides the house
    vault: the accounts of its context and its remaining accounts. *)
Definition op_accounts (op : Op) : list Pubkey :=
  match op with
  | OpInitializeVault user vault _ => [user; vault]
  | OpDeposit _ _ u v _ => [u; v]
  | OpWithdraw _ o v _ => [o; v]
  | OpPlaceBet _ v _ => [v]
  | OpSettleGame _ v _ _ => [v]
  | OpCreditWin _ v _ => [v]
  | OpDebitLoss _ v _ => [v]
  | OpBetAndSettle _ _ v _ _ _ _ _ => [v]
  | OpBetAndSettleGems _ v _ _ _ _ => [v]
  | OpBatchSettle _ _ _ _ _ _ _ r => r
  | OpBatchSettleProfits _ _ _ _ r => map BatchProfit.key r
  | OpStartMaintenancePause _ _ => []
  | OpEmergencyPause _ => []
  | OpUnpause _ => []
  end.

(** What the v2 settlement adds to [total_volume] for one stake: the stake
    when it is positive. *)
Definition stake_volume (stake : Z) : Z := if 0 <? stake then stake else 0.

Definition op_volume (op : Op) : Z :=
  match op with
  | OpBetAndSettle _ _ _ stake _ _ _ _ => stake_volume stake
  | OpBatchSettle _ _ stakes _ _ _ _ _ =>
      fold_right (fun st acc => stake_volume st + acc) 0 stakes
  | _ => 0
  end.

(** Whether a roll value [r] awards a gem in one pass of the reward loop at
    [multiplier], and how many of the 1000 roll values do. *)
Definition roll_awards (multiplier r : Z) : bool :=
  match Airdrop.gem_rolls (fun _ => r) multiplier Airdrop.THRESHOLD with
  | Ok (_, _, g) => negb (Nat.eqb (List.length g) 0)
  | Err _ => false
  end.

Definition award_count (multiplier : Z) : Z :=
  Z.of_nat (List.length (filter (roll_awards multiplier)
                                (map Z.of_nat (seq 0 1000)))).

(** What a v2 batch moves into account [k]: the sum of [payout - stake] over
    the entries from position [i] on whose remaining account is [k]; and what
    it moves out of the house in total. *)
Fixpoint entry_delta (k : Pubkey) (i : nat) (remaining : list Pubkey)
  (items : list (Z * Z)) : Z :=
  match items with
  | [] => 0
  | (stake, payout) :: rest =>
      (match nth_error remaining i with
       | Some v => if pk_eqb v k then payout - stake else 0
       | None => 0
       end) + entry_delta k (S i) remaining rest
  end.

Fixpoint house_delta (items : list (Z * Z)) : Z :=
  match items with
  | [] => 0
  | (stake, payout) :: rest => (payout - stake) + house_delta rest
  end.

(** A v2 batch of two entries against bob's vault, on a ledger with no pause;
    and the remaining accounts of a one-user profit batch. *)
Definition batch_op : Op :=
  OpBatchSettle 10 ADMIN [1000; 2000] [3000; 500] ["b1"; "b2"] [1; 2] [gems7; gems7]
    ["vault_bob"; "vault_bob"].
Definition open_ledger : Ledger := paused_ledger (mkPauseConfig false 0 4 false).

Definition profit_refs : list BatchProfit.AccountRef :=
  [BatchProfit.mkAccountRef "vault_bob" true].


(** * Proofs *)

(** ** Running a handler symbolically *)

Lemma upd_same {A} (f : Pubkey -> A) k v : upd f k v k = v.
Proof. unfold upd, pk_eqb. now rewrite String.eqb_refl. Qed.

Lemma upd_other {A} (f : Pubkey -> A) k k' v : k <> k' -> upd f k v k' = f k'.
Proof.
  intros Hne. unfold upd, pk_eqb.
  destruct (String.eqb_spec k k'); [contradiction | reflexivity].
Qed.

(** Turn the boolean tests met on a path into propositions. *)
Ltac bools :=
  repeat match goal with
  | H : (_ <=? _) = true |- _ => apply Z.leb_le in H
  | H : (_ <=? _) = false |- _ => apply Z.leb_gt in H
  | H : (_ <? _) = true |- _ => apply Z.ltb_lt in H
  | H : (_ <? _) = false |- _ => apply Z.ltb_ge in H
  | H : (_ =? _)%Z = true |- _ => apply Z.eqb_eq in H
  | H : (_ =? _)%Z = false |- _ => apply Z.eqb_neq in H
  | H : Nat.eqb _ _ = true |- _ => apply Nat.eqb_eq in H
  | H : Nat.eqb _ _ = false |- _ => apply Nat.eqb_neq in H
  | H : Nat.leb _ _ = true |- _ => apply Nat.leb_le in H
  | H : Nat.leb _ _ = false |- _ => apply Nat.leb_gt in H
  | H : Nat.ltb _ _ = true |- _ => apply Nat.ltb_lt in H
  | H : Nat.ltb _ _ = false |- _ => apply Nat.ltb_ge in H
  | H : in_u64 _ = _ |- _ => unfold in_u64 in H
  | H : in_i64 _ = _ |- _ => unfold in_i64 in H
  | H : (_ && _) = true |- _ => apply andb_true_iff in H; destruct H
  | H : (_ && _) = false |- _ => apply andb_false_iff in H; destruct H
  | H : negb _ = true |- _ => apply negb_true_iff in H
  | H : negb _ = false |- _ => apply negb_false_iff in H
  end.

(** Turn the key comparisons met on a path into (dis)equalities. *)
Ltac pks :=
  repeat match goal with
  | H : pk_eqb _ _ = true |- _ => apply String.eqb_eq in H; subst
  | H : pk_eqb _ _ = false |- _ => apply String.eqb_neq in H
  end.

(** Unfold the monad and the primitive accessors in hypothesis [H]; the
    pause gate is kept folded by [unfold_core]. *)
Ltac unfold_core H :=
  cbv beta iota zeta delta [bind ret fail require get put get_lamports
    set_lamports sub_lamports add_lamports load_vault store_vault
    get_total_volume set_total_volume get_pause_config set_pause_config
    checked_add_u64 check_authority_address system_transfer
    check_uninitialized Airdrop.lift V2.index] in H.

Ltac unfold_monad H :=
  cbv beta iota zeta delta [V2.pause_gate] in H; unfold_core H.

Ltac proj_simpl :=
  cbn [lamports vaults total_volume pause_config owner locked_amount
       active_games accum_wager maintenance_pause maintenance_start_time
       maintenance_duration_hours emergency_pause] in *.

(** Follow every branch of a handler run [H : m s = r]. *)
Ltac run_loop H :=
  repeat (match type of H with
          | context [match ?x with _ => _ end] =>
              lazymatch x with
              | context [match _ with _ => _ end] => fail
              | _ => let E := fresh "E" in destruct x eqn:E
              end
          end; cbn beta iota zeta in H; proj_simpl; try discriminate H);
  bools; proj_simpl.

Ltac run H := unfold_monad H; run_loop H.

(** The same, with the pause gate left as one step. *)
Ltac run_gated H := unfold_core H; run_loop H.

(** [H : Ok x = Ok y]: substitute. *)
Ltac ok_inv H := injection H; intros; subst; proj_simpl.

(** ** Vault data untouched by the lamport-only paths *)

Lemma settle_entry_vaults vault stake payout s a s' :
  V2.settle_entry vault stake payout s = Ok (a, s') -> vaults s' = vaults s.
Proof.
  intros H. unfold V2.settle_entry in H. run H; try (ok_inv H; reflexivity).
Qed.

Lemma batch_items_vaults i remaining items s a s' :
  V2.batch_items i remaining items s = Ok (a, s') -> vaults s' = vaults s.
Proof.
  revert i s a s'.
  induction items as [|[stake payout] rest IH]; intros i s a s' H.
  - cbn in H. now ok_inv H.
  - cbn [V2.batch_items] in H. run H.
    all: try (ok_inv H; reflexivity).
    all: match goal with
         | E : V2.settle_entry _ _ _ _ = Ok _ |- _ =>
             apply settle_entry_vaults in E
         end.
    all: apply IH in H; congruence.
Qed.

Lemma settle_profit_vaults vault delta s a s' :
  BatchProfit.settle_profit vault delta s = Ok (a, s') -> vaults s' = vaults s.
Proof.
  intros H. unfold BatchProfit.settle_profit in H. run H; try (ok_inv H; reflexivity).
Qed.

Lemma profit_items_vaults f i remaining profits users s a s' :
  BatchProfit.profit_items f i remaining profits users s = Ok (a, s') ->
  vaults s' = vaults s.
Proof.
  revert i s a s'.
  induction users as [|u rest IH]; intros i s a s' H.
  - cbn in H. now ok_inv H.
  - cbn [BatchProfit.profit_items] in H. run H.
    all: try (ok_inv H; reflexivity).
    all: match goal with
         | E : BatchProfit.settle_profit _ _ _ = Ok _ |- _ =>
             apply settle_profit_vaults in E
         end.
    all: apply IH in H; congruence.
Qed.

(** ** Bounds of [locked_amount] *)

Definition locked_ok (v : UserVault) : Prop := 0 <= locked_amount v <= U64_MAX.

Definition vaults_ok (s : Ledger) : Prop :=
  forall k v, vaults s k = Some v -> locked_ok v.

Lemma exec_vaults_ok op s s' :
  vaults_ok s -> exec op s = Ok (tt, s') -> vaults_ok s'.
Proof.
  intros Hinv H. destruct op; cbn [exec] in H.
  - unfold initialize_vault in H. run H; ok_inv H.
    unfold vaults_ok; proj_simpl; intros k0 v0 Hk.
    unfold upd in Hk; destruct (pk_eqb _ k0);
      [injection Hk as <-; unfold locked_ok; cbn; unfold U64_MAX; lia | eauto].
  - unfold V2.deposit in H. run H; ok_inv H; exact Hinv.
  - unfold V2.withdraw in H. run H; ok_inv H; exact Hinv.
  - unfold V1.place_bet in H. run H; ok_inv H.
    pose proof (Hinv _ _ E) as Hu. unfold vaults_ok; proj_simpl; intros k0 v0 Hk.
    unfold upd in Hk; destruct (pk_eqb _ k0);
      [injection Hk as <-; unfold locked_ok in *; proj_simpl; lia | eauto].
  - unfold V1.settle_game in H. run H; ok_inv H.
    all: pose proof (Hinv _ _ E) as Hu; unfold vaults_ok; proj_simpl;
      intros k0 v0 Hk; unfold upd in Hk; destruct (pk_eqb _ k0);
      [injection Hk as <-; unfold locked_ok in *; proj_simpl; lia | eauto].
  - unfold V1.credit_win in H. run H; ok_inv H; exact Hinv.
  - unfold V1.debit_loss in H. run H; ok_inv H; exact Hinv.
  - unfold V2.bet_and_settle in H. run H;
    apply settle_entry_vaults in H; intros k0 v0 Hk; rewrite H in Hk; eauto.
  - unfold Airdrop.bet_and_settle in H. run H; ok_inv H.
    all: pose proof (Hinv _ _ E) as Hu; unfold vaults_ok; proj_simpl;
      intros k0 v0 Hk; unfold upd in Hk; destruct (pk_eqb _ k0);
      [injection Hk as <-; unfold locked_ok in *; proj_simpl; lia | eauto].
  - unfold V2.batch_settle in H. run H;
    apply batch_items_vaults in H; intros k0 v0 Hk; rewrite H in Hk; eauto.
  - unfold BatchProfit.batch_settle in H. run H;
    apply profit_items_vaults in H; intros k0 v0 Hk; rewrite H in Hk; eauto.
  - unfold V2.start_maintenance_pause in H. run H; ok_inv H; exact Hinv.
  - unfold V2.emergency_pause in H. run H; ok_inv H; exact Hinv.
  - unfold V2.unpause in H. run H; ok_inv H; exact Hinv.
Qed.

Lemma run_ops_reachable ops s s' :
  reachable s -> run_ops ops s = Some s' -> reachable s'.
Proof.
  revert s. induction ops as [|op rest IH]; intros s Hs H; cbn in H.
  - congruence.
  - destruct (exec op s) as [[[] s1]|e] eqn:E; [|discriminate].
    exact (IH s1 (reach_step s op s1 Hs E) H).
Qed.

Lemma locked_state_reachable : reachable locked_state.
Proof.
  apply (run_ops_reachable locked_trace demo_ledger).
  - apply reach_init. intros k. reflexivity.
  - vm_compute. reflexivity.
Qed.

(** C1 (counterexample): [locked_amount <= balance] fails in a reachable
    state: after [place_bet] of the whole balance the vault holds 0 lamports
    while [locked_amount] is the stake. *)
Lemma locked_amount_exceeds_balance :
  ~ (forall s, reachable s -> forall k v, vaults s k = Some v ->
       0 <= locked_amount v <= lamports s k).
Proof.
  intros Hall.
  pose proof (Hall _ locked_state_reachable "vault_alice"
                (mkUserVault "alice" 1000000 1 0) ltac:(vm_compute; reflexivity))
    as H.
  vm_compute in H. destruct H as [_ H]. exact (H eq_refl).
Qed.

(** C1 (amended): in every reachable ledger, every vault's [locked_amount]
    stays in the [u64] range: it is never negative and never exceeds
    [2^64 - 1] ([place_bet] uses [checked_add], [settle_game] requires
    [locked_amount >= stake], the other instructions leave it unchanged). *)
Theorem locked_amount_in_u64 :
  forall s, reachable s -> forall k v, vaults s k = Some v ->
    0 <= locked_amount v <= U64_MAX.
Proof.
  intros s Hr. induction Hr as [s Hnone | s op s' Hr IH Hstep].
  - intros k v Hk. rewrite Hnone in Hk. discriminate.
  - exact (exec_vaults_ok op s s' IH Hstep).
Qed.

Lemma locked_amount_in_u64_witness :
  reachable locked_state /\
  (forall k v, vaults locked_state k = Some v -> 0 <= locked_amount v <= U64_MAX).
Proof.
  split.
  - exact locked_state_reachable.
  - exact (locked_amount_in_u64 locked_state locked_state_reachable).
Defined.

(** ** The reward loop *)

Lemma threshold_pos : 0 < Airdrop.THRESHOLD.
Proof. unfold Airdrop.THRESHOLD. lia. Qed.

Lemma div_threshold_step a :
  a / Airdrop.THRESHOLD = (a - Airdrop.THRESHOLD) / Airdrop.THRESHOLD + 1.
Proof.
  pose proof threshold_pos.
  replace a with ((a - Airdrop.THRESHOLD) + 1 * Airdrop.THRESHOLD) at 1 by lia.
  rewrite Z.div_add by lia. reflexivity.
Qed.

Lemma effective_award_prob_eq m : 300 * m / 100 = 3 * m.
Proof.
  replace (300 * m) with (3 * m * 100) by ring. apply Z.div_mul. discriminate.
Qed.

(** With no awarding roll, the loop runs one iteration per threshold in the
    start value: the [roll_count > 100] break is never reached. *)
Lemma gem_loop_no_award_runs_all fuel roll_hash m accum rc gems :
  50 <= m <= 300 ->
  (forall i, roll_hash i mod 1000 < 1000 - 3 * m) ->
  0 <= accum -> 0 <= rc -> rc + accum / Airdrop.THRESHOLD <= U32_MAX ->
  accum / Airdrop.THRESHOLD < Z.of_nat fuel ->
  Airdrop.gem_loop fuel roll_hash m accum rc gems =
    Ok (accum mod Airdrop.THRESHOLD, rc + accum / Airdrop.THRESHOLD, gems).
Proof.
  intros Hm Hroll. pose proof threshold_pos as Hpos.
  revert accum rc.
  induction fuel as [|fuel IH]; intros accum rc Ha Hrc Hu Hf.
  - pose proof (Z.div_pos accum Airdrop.THRESHOLD Ha Hpos). lia.
  - rewrite Nat2Z.inj_succ in Hf. cbn [Airdrop.gem_loop].
    rewrite effective_award_prob_eq, Z.min_l by lia.
    destruct (Airdrop.THRESHOLD <=? accum) eqn:Ht; bools.
    + pose proof (div_threshold_step accum) as Hd.
      pose proof (Z.div_pos (accum - Airdrop.THRESHOLD) Airdrop.THRESHOLD
                    ltac:(lia) Hpos) as Hd0.
      specialize (Hroll rc).
      destruct (_ <? _) eqn:Hr; bools; [|lia].
      destruct (rc + 1 <=? U32_MAX) eqn:Hu1; bools; [|lia].
      rewrite IH by lia.
      assert (Hmod : (accum - Airdrop.THRESHOLD) mod Airdrop.THRESHOLD =
                     accum mod Airdrop.THRESHOLD).
      { replace (accum - Airdrop.THRESHOLD) with (accum + (-1) * Airdrop.THRESHOLD)
          by lia.
        apply Z.mod_add. lia. }
      rewrite Hmod. do 3 f_equal. lia.
    + rewrite Z.mod_small, Z.div_small by lia. do 3 f_equal. lia.
Qed.

(** With an awarding roll every time, the break fires after roll 101. *)
Lemma gem_loop_award_stops_at_101 fuel roll_hash m accum rc gems :
  50 <= m <= 300 ->
  (forall i, 1000 - 3 * m <= roll_hash i mod 1000) ->
  0 <= rc <= 100 -> (101 - rc) * Airdrop.THRESHOLD <= accum ->
  101 - rc <= Z.of_nat fuel ->
  exists g, Airdrop.gem_loop fuel roll_hash m accum rc gems =
    Ok (accum - (101 - rc) * Airdrop.THRESHOLD, 101, g).
Proof.
  intros Hm Hroll. pose proof threshold_pos as Hpos.
  revert accum rc gems.
  induction fuel as [|fuel IH]; intros accum rc gems Hrc Ha Hf.
  - lia.
  - rewrite Nat2Z.inj_succ in Hf. cbn [Airdrop.gem_loop].
    rewrite effective_award_prob_eq, Z.min_l by lia.
    destruct (Airdrop.THRESHOLD <=? accum) eqn:Ht; bools; [|nia].
    specialize (Hroll rc).
    destruct (_ <? _) eqn:Hr; bools; [lia|].
    destruct (rc + 1 <=? U32_MAX) eqn:Hu1; bools; [|unfold U32_MAX in *; lia].
    destruct (100 <? rc + 1) eqn:Hb; bools.
    + assert (rc = 100) by lia. subst rc. eexists.
      replace (accum - (101 - 100) * Airdrop.THRESHOLD) with (accum - Airdrop.THRESHOLD)
        by lia.
      reflexivity.
    + match goal with
      | |- context [Airdrop.gem_loop fuel _ _ ?a ?r ?gs] =>
          destruct (IH a r gs ltac:(lia) ltac:(nia) ltac:(lia)) as [g Hg]
      end.
      rewrite Hg. exists g. do 3 f_equal. lia.
Qed.

(** C2 (code bug): the 100-roll cap of the reward loop only guards the
    awarding path.  A non-awarding roll does [roll_count += 1; continue;] and
    skips the [roll_count > 100] check, so for every multiplier from 50 to
    300 and every start of [k > 100] thresholds, rolls that never award run
    all [k] iterations (and leave [accum_wager] at 0), while rolls that
    always award stop after 101 iterations with [k - 101] thresholds left. *)
Theorem gem_loop_cap_skipped_without_award roll_hash m k :
  50 <= m <= 300 -> 100 < k <= U32_MAX ->
  (forall i, roll_hash i mod 1000 < 1000 - 3 * m) ->
  Airdrop.gem_rolls roll_hash m (k * Airdrop.THRESHOLD) = Ok (0, k, []) /\
  exists g, Airdrop.gem_rolls (fun _ => 999) m (k * Airdrop.THRESHOLD) =
            Ok ((k - 101) * Airdrop.THRESHOLD, 101, g).
Proof.
  intros Hm Hk Hroll. pose proof threshold_pos as Hpos.
  assert (Hq : k * Airdrop.THRESHOLD / Airdrop.THRESHOLD = k) by (apply Z.div_mul; lia).
  unfold Airdrop.gem_rolls. rewrite Hq. split.
  - rewrite gem_loop_no_award_runs_all
      by first [assumption | lia | rewrite Nat2Z.inj_succ, Z2Nat.id; lia].
    rewrite Z.mod_mul, Hq by lia. reflexivity.
  - destruct (gem_loop_award_stops_at_101 (S (Z.to_nat k)) (fun _ => 999) m
                (k * Airdrop.THRESHOLD) 0 [] Hm ltac:(intros i; change (1000 - 3 * m <= 999); lia)
                ltac:(lia) ltac:(nia) ltac:(rewrite Nat2Z.inj_succ, Z2Nat.id; lia))
      as [g Hg].
    exists g. rewrite Hg. f_equal. f_equal. f_equal. lia.
Qed.

Lemma gem_loop_cap_skipped_without_award_witness :
  Airdrop.gem_rolls (fun _ => 0) 100 (150 * Airdrop.THRESHOLD) = Ok (0, 150, []) /\
  exists g, Airdrop.gem_rolls (fun _ => 999) 100 (150 * Airdrop.THRESHOLD) =
            Ok ((150 - 101) * Airdrop.THRESHOLD, 101, g).
Proof.
  apply (gem_loop_cap_skipped_without_award (fun _ => 0) 100 150).
  - lia.
  - unfold U32_MAX. lia.
  - intros i. cbn. lia.
Defined.

(** ** Single-call settlement *)

(** C3 (counterexample): with the house volume at [2^64 - 1] a bet with a
    positive stake fails with [Overflow] from [checked_add], so the volume
    does not grow by [stake] and the house does not pay. *)
Lemma bet_and_settle_volume_overflow :
  ~ (exists s',
       invoke (V2.bet_and_settle 0 ADMIN "vault_bob" 1000 1500 "bet" 1 gems7)
         (bob_ledger 5000 1000000 U64_MAX) = (Ok tt, s') /\
       total_volume s' = U64_MAX + 1000 /\
       lamports s' "vault_bob" = 5500).
Proof.
  intros (s' & H & _). vm_compute in H. discriminate H.
Qed.

(** C3 (amended): a [bet_and_settle] with [0 < stake] that passes its gem
    data length, pause and authority checks, on an existing vault other
    than the house with [u64] balances whose sum stays in [u64], fails with
    [InsufficientFunds] when the vault holds less than [stake]; else with
    [Overflow] when [total_volume + stake] leaves [u64]; else with
    [HouseInsufficient] when [payout > stake] and the house holds less than
    [payout - stake]; each failure leaves the ledger unchanged.  Otherwise
    it succeeds, adds [stake] to [total_volume], moves [payout - stake]
    from the house to the vault (a negative amount moves the other way) and
    changes nothing else. *)
Theorem bet_and_settle_stake_positive now authority vault stake payout bet_id
  game_id gem_data s v :
  0 < stake <= U64_MAX -> 0 <= payout <= U64_MAX ->
  List.length gem_data = 7%nat ->
  V2.pause_gate now s = Ok (tt, s) ->
  authority = ADMIN -> vault <> HOUSE -> vaults s vault = Some v ->
  0 <= lamports s vault -> 0 <= lamports s HOUSE ->
  lamports s vault + lamports s HOUSE <= U64_MAX ->
  let r := invoke (V2.bet_and_settle now authority vault stake payout bet_id
                     game_id gem_data) s in
  (lamports s vault < stake -> r = (Err (Vault InsufficientFunds), s)) /\
  (stake <= lamports s vault -> U64_MAX < total_volume s + stake ->
     r = (Err (Vault Overflow), s)) /\
  (stake <= lamports s vault -> total_volume s + stake <= U64_MAX ->
     stake < payout -> lamports s HOUSE < payout - stake ->
     r = (Err (Vault HouseInsufficient), s)) /\
  (stake <= lamports s vault -> total_volume s + stake <= U64_MAX ->
     (payout <= stake \/ payout - stake <= lamports s HOUSE) ->
     exists s', r = (Ok tt, s') /\
       total_volume s' = total_volume s + stake /\
       lamports s' vault = lamports s vault + (payout - stake) /\
       lamports s' HOUSE = lamports s HOUSE - (payout - stake) /\
       (forall k, k <> vault -> k <> HOUSE -> lamports s' k = lamports s k) /\
       vaults s' = vaults s /\ pause_config s' = pause_config s).
Proof.
  intros Hst Hpay Hgem Hp -> Hne Hv Hb0 Hh0 Hsum r. subst r. unfold invoke.
  destruct (V2.bet_and_settle _ _ _ _ _ _ _ _ s) as [[[] s']|e] eqn:H;
    unfold V2.bet_and_settle, V2.settle_entry in H; run_gated H.
  all: try discriminate.
  all: try (injection Hp; intros; subst).
  all: try (exfalso; lia).
  all: ok_inv H.
  all: repeat (rewrite upd_same in * || rewrite upd_other in * by congruence).
  all: repeat split; intros; try (exfalso; lia); try reflexivity.
  all: eexists; split; [reflexivity|]; proj_simpl.
  all: repeat (rewrite upd_same || rewrite upd_other by congruence).
  all: repeat split; try lia.
  all: intros k Hk1 Hk2;
    repeat (rewrite upd_same || rewrite upd_other by congruence); reflexivity.
Qed.

(** The example of the specification: stake 1000, payout 1500, the house
    holds 499 lamports; the call fails and the ledger is unchanged. *)
Lemma bet_and_settle_stake_positive_witness :
  invoke (V2.bet_and_settle 0 ADMIN "vault_bob" 1000 1500 "bet" 1 gems7)
    (bob_ledger 5000 499 0) =
  (Err (Vault HouseInsufficient), bob_ledger 5000 499 0).
Proof.
  pose proof (bet_and_settle_stake_positive 0 ADMIN "vault_bob" 1000 1500 "bet" 1
                gems7 (bob_ledger 5000 499 0) (mkUserVault "bob" 0 0 0)
                ltac:(unfold U64_MAX; lia) ltac:(unfold U64_MAX; lia)
                eq_refl eq_refl eq_refl ltac:(discriminate) eq_refl
                ltac:(simpl; lia) ltac:(simpl; lia)
                ltac:(simpl; unfold U64_MAX; lia)) as T.
  destruct T as (_ & _ & H & _).
  apply H; simpl; unfold U64_MAX; lia.
Defined.

(** ** Batches *)

Lemma pause_gate_state now s a s' :
  V2.pause_gate now s = Ok (a, s') -> s' = s.
Proof. intros H. run H; ok_inv H; reflexivity. Qed.

(** The loop over a prefix that went through hands its ledger to the rest. *)
Lemma batch_items_app i remaining pre rest s s1 :
  V2.batch_items i remaining pre s = Ok (tt, s1) ->
  V2.batch_items i remaining (pre ++ rest) s =
  V2.batch_items (i + List.length pre) remaining rest s1.
Proof.
  revert i s.
  induction pre as [|[stake payout] pre IH]; intros i s H.
  - cbn in H. injection H as <-. cbn. now rewrite Nat.add_0_r.
  - cbn [V2.batch_items app List.length] in *.
    rewrite <- Nat.add_succ_comm.
    unfold bind, V2.index in *.
    destruct (nth_error remaining i) as [k|]; [|discriminate H].
    cbn in *. destruct (V2.settle_entry k stake payout s) as [[[] s2]|e];
      [|discriminate H].
    exact (IH (S i) s2 H).
Qed.

(** A successful [batch_settle] is its loop run from the ledger it was
    given: the checks before the loop change nothing. *)
Lemma batch_settle_loop now authority stakes payouts bet_ids game_ids
  gem_datas remaining s a s' :
  V2.batch_settle now authority stakes payouts bet_ids game_ids gem_datas
    remaining s = Ok (a, s') ->
  V2.batch_items 0 remaining (combine stakes payouts) s = Ok (a, s').
Proof.
  intros H. unfold V2.batch_settle in H. run_gated H.
  match goal with
  | E : V2.pause_gate _ _ = Ok _ |- _ => apply pause_gate_state in E
  end.
  subst. exact H.
Qed.

(** C4: no partial batch.  When the entries before entry [k] go through and
    entry [k] (stake and payout at position [k], vault reference
    [remaining_accounts[k]]) fails with [e] on the ledger they left, the
    whole [batch_settle] fails, and the host keeps the ledger the call
    started from: no entry of the batch, before or after [k], has any
    effect on any balance, on [total_volume] or on any vault. *)
Theorem batch_settle_no_partial_commit now authority stakes payouts bet_ids
  game_ids gem_datas remaining s pre stake payout post vault s1 e :
  combine stakes payouts = (pre ++ (stake, payout) :: post)%list ->
  V2.batch_items 0 remaining pre s = Ok (tt, s1) ->
  nth_error remaining (List.length pre) = Some vault ->
  V2.settle_entry vault stake payout s1 = Err e ->
  exists e',
    V2.batch_settle now authority stakes payouts bet_ids game_ids gem_datas
      remaining s = Err e' /\
    invoke (V2.batch_settle now authority stakes payouts bet_ids game_ids
              gem_datas remaining) s = (Err e', s).
Proof.
  intros Hc Hpre Hv He.
  assert (Hloop : V2.batch_items 0 remaining (combine stakes payouts) s = Err e).
  { rewrite Hc, (batch_items_app 0 remaining pre _ s s1 Hpre).
    cbn [Nat.add V2.batch_items]. unfold bind, V2.index, ret.
    rewrite Hv. cbn. rewrite He. reflexivity. }
  destruct (V2.batch_settle now authority stakes payouts bet_ids game_ids
              gem_datas remaining s) as [[a s']|e'] eqn:H.
  - apply batch_settle_loop in H. congruence.
  - exists e'. split; [reflexivity|]. unfold invoke. now rewrite H.
Qed.

(** The example of the specification: three entries of stake 1000, the
    second against a vault of 100 lamports; the call fails and leaves
    every balance as it was. *)
Lemma batch_settle_no_partial_commit_witness :
  exists e,
    invoke (V2.batch_settle 0 ADMIN [1000; 1000; 1000] [0; 0; 2000]
              ["b1"; "b2"; "b3"] [1; 2; 3] [gems7; gems7; gems7]
              ["vault_a"; "vault_b"; "vault_c"]) batch_ledger =
    (Err e, batch_ledger).
Proof.
  destruct (batch_settle_no_partial_commit 0 ADMIN [1000; 1000; 1000]
              [0; 0; 2000] ["b1"; "b2"; "b3"] [1; 2; 3] [gems7; gems7; gems7]
              ["vault_a"; "vault_b"; "vault_c"] batch_ledger
              [(1000, 0)] 1000 0 [(1000, 2000)] "vault_b"
              (match V2.batch_items 0 ["vault_a"; "vault_b"; "vault_c"]
                       [(1000, 0)] batch_ledger with
               | Ok (_, s1) => s1
               | Err _ => batch_ledger
               end)
              (Vault InsufficientFunds)
              eq_refl ltac:(vm_compute; reflexivity) eq_refl
              ltac:(vm_compute; reflexivity))
    as (e & _ & H).
  exists e. exact H.
Defined.

(** ** The pause gate *)

(** C5: the maintenance pause does not clear for good once its duration has
    elapsed.  [elapsed_hours] is [(elapsed_seconds / 3600) as u8], which
    wraps every 256 hours: with a 4-hour maintenance started at time 0, the
    gate is open at hour 4 but closed again at hour 256, and all four gated
    handlers fail with [MaintenancePaused] although 256 hours have
    elapsed. *)
Theorem maintenance_pause_recloses_after_256_hours :
  let s := paused_ledger (mkPauseConfig true 0 4 false) in
  (exists s', V2.deposit (4 * 3600) "bob" "bob" "vault_bob" 1000 s = Ok (tt, s')) /\
  4 * 3600 <= 256 * 3600 - 0 /\
  V2.deposit (256 * 3600) "bob" "bob" "vault_bob" 1000 s =
    Err (Vault MaintenancePaused) /\
  V2.withdraw (256 * 3600) "bob" "vault_bob" 1000 s =
    Err (Vault MaintenancePaused) /\
  V2.bet_and_settle (256 * 3600) ADMIN "vault_bob" 1000 1000 "bet" 1 gems7 s =
    Err (Vault MaintenancePaused) /\
  V2.batch_settle (256 * 3600) ADMIN [1000] [1000] ["bet"] [1] [gems7]
    ["vault_bob"] s = Err (Vault MaintenancePaused).
Proof.
  intros s. split; [eexists; vm_compute; reflexivity|].
  split; [lia|].
  repeat split; vm_compute; reflexivity.
Qed.

(** ** The two-phase program *)

(** C6 (counterexample): [place_bet(500)] on a vault of 500 lamports with
    nothing locked, by the authority, does not succeed when the vault
    already counts [2^32 - 1] active games: [active_games += 1] overflows
    [u32] and the instruction aborts. *)
Lemma place_bet_active_games_overflow :
  ~ (0 < 500 /\
     500 <= lamports (v1_ledger 500 0 U32_MAX) "vault_alice" - 0 ->
     exists s', V1.place_bet AUTHORITY_PUBKEY "vault_alice" 500
                  (v1_ledger 500 0 U32_MAX) = Ok (tt, s')).
Proof.
  intros H. destruct H as [s' Hs].
  - split; [lia | cbn; lia].
  - vm_compute in Hs. discriminate Hs.
Qed.

(** C6 (amended): on an existing vault other than the house, with
    [locked_amount] in [u64], [active_games] in [u32], a [u64] stake and
    [u64] balances whose sum stays in [u64], [place_bet(stake)] succeeds
    exactly when [stake > 0], the caller is the authority,
    [balance - locked_amount >= stake] and [active_games < 2^32 - 1].  On
    success it adds [stake] to [locked_amount], increments [active_games],
    moves [stake] lamports from the vault to the house and changes nothing
    else; when it fails while [stake > 0], the caller is the authority and
    [balance - locked_amount < stake], the error is [InsufficientFunds]. *)
Theorem place_bet_exact authority vault stake s v :
  vaults s vault = Some v -> vault <> HOUSE ->
  0 <= locked_amount v <= U64_MAX -> 0 <= active_games v <= U32_MAX ->
  0 <= stake <= U64_MAX ->
  0 <= lamports s vault -> 0 <= lamports s HOUSE ->
  lamports s vault + lamports s HOUSE <= U64_MAX ->
  match V1.place_bet authority vault stake s with
  | Ok (_, s') =>
      0 < stake /\ authority = AUTHORITY_PUBKEY /\
      stake <= lamports s vault - locked_amount v /\
      active_games v < U32_MAX /\
      vaults s' vault = Some (mkUserVault (owner v) (locked_amount v + stake)
                                          (active_games v + 1) (accum_wager v)) /\
      (forall k, k <> vault -> vaults s' k = vaults s k) /\
      lamports s' vault = lamports s vault - stake /\
      lamports s' HOUSE = lamports s HOUSE + stake /\
      (forall k, k <> vault -> k <> HOUSE -> lamports s' k = lamports s k) /\
      total_volume s' = total_volume s /\ pause_config s' = pause_config s
  | Err e =>
      ~ (0 < stake /\ authority = AUTHORITY_PUBKEY /\
         stake <= lamports s vault - locked_amount v /\
         active_games v < U32_MAX) /\
      (0 < stake -> authority = AUTHORITY_PUBKEY ->
       lamports s vault - locked_amount v < stake ->
       e = Vault InsufficientFunds)
  end.
Proof.
  intros Hv Hne Hl Ha Hs Hb0 Hh0 Hsum.
  destruct (V1.place_bet authority vault stake s) as [[[] s']|e] eqn:H;
    unfold V1.place_bet in H; run H.
  all: rewrite Hv in *; try discriminate E.
  all: try (injection Hv as ->).
  all: pks.
  all: unfold saturating_sub in *.
  all: try (ok_inv H).
  all: repeat (rewrite upd_same in * || rewrite upd_other in * by congruence).
  all: try (split; [intros (? & ? & ? & ?); lia || congruence
                  | intros; congruence || lia]).
  all: repeat split; try lia; try reflexivity.
  all: intros k Hk;
    repeat (intros ? || rewrite upd_other by congruence); reflexivity.
Qed.

(** The example of the specification: [place_bet(500)] on a vault of 500
    lamports leaves [locked_amount = 500] and [active_games = 1]; a second
    [place_bet(500)] fails with [InsufficientFunds]. *)
Lemma place_bet_exact_witness :
  match V1.place_bet AUTHORITY_PUBKEY "vault_alice" 500 (v1_ledger 500 0 0) with
  | Ok (_, s1) =>
      vaults s1 "vault_alice" = Some (mkUserVault "alice" 500 1 0) /\
      V1.place_bet AUTHORITY_PUBKEY "vault_alice" 500 s1 =
        Err (Vault InsufficientFunds)
  | Err _ => False
  end.
Proof.
  pose proof (place_bet_exact AUTHORITY_PUBKEY "vault_alice" 500
                (v1_ledger 500 0 0) (mkUserVault "alice" 0 0 0) eq_refl
                ltac:(discriminate) ltac:(cbn; unfold U64_MAX; lia)
                ltac:(cbn; unfold U32_MAX; lia) ltac:(unfold U64_MAX; lia)
                ltac:(cbn; lia) ltac:(cbn; lia) ltac:(cbn; unfold U64_MAX; lia))
    as T1.
  destruct (V1.place_bet AUTHORITY_PUBKEY "vault_alice" 500 (v1_ledger 500 0 0))
    as [[[] s1]|e] eqn:E1.
  2: { destruct T1 as [T1 _]. apply T1.
       repeat split; cbn; unfold U32_MAX; lia. }
  destruct T1 as (_ & _ & _ & _ & Hv1 & _ & Hl1 & Hh1 & _).
  cbn in Hv1, Hl1, Hh1.
  split; [exact Hv1|].
  pose proof (place_bet_exact AUTHORITY_PUBKEY "vault_alice" 500 s1
                (mkUserVault "alice" 500 1 0) Hv1
                ltac:(discriminate) ltac:(cbn; unfold U64_MAX; lia)
                ltac:(cbn; unfold U32_MAX; lia) ltac:(unfold U64_MAX; lia)
                ltac:(rewrite Hl1; lia) ltac:(rewrite Hh1; lia)
                ltac:(rewrite Hl1, Hh1; unfold U64_MAX; lia))
    as T2.
  destruct (V1.place_bet AUTHORITY_PUBKEY "vault_alice" 500 s1)
    as [[[] s2]|e2].
  - destruct T2 as (_ & _ & T2 & _). cbn in T2. lia.
  - destruct T2 as [_ T2]. rewrite (T2 ltac:(lia) eq_refl ltac:(cbn; lia)).
    reflexivity.
Defined.

(** C7 (counterexample): [settle_game] by the authority with one active
    game and 500 lamports locked does not settle a stake of 0: the handler
    requires [stake > 0] and fails with [InvalidAmount]. *)
Lemma settle_game_zero_stake :
  ~ (exists s', V1.settle_game AUTHORITY_PUBKEY "vault_alice" 0 0
                  (v1_ledger 0 500 1) = Ok (tt, s')).
Proof.
  intros (s' & Hs). vm_compute in Hs. discriminate Hs.
Qed.

(** C7 (amended): [settle_game(stake, payout)] by the authority on an
    existing vault other than the house, with [active_games > 0],
    [locked_amount >= stake], a [u64] payout and [u64] balances whose sum
    stays in [u64]: with [stake = 0] it fails with [InvalidAmount]; with
    [stake > 0] and [0 < payout] above the house balance it fails with
    [HouseInsufficient]; otherwise it succeeds, subtracts [stake] from
    [locked_amount], decrements [active_games], moves [payout] lamports
    from the house to the vault (nothing when [payout = 0]) and changes
    nothing else. *)
Theorem settle_game_exact authority vault stake payout s v :
  vaults s vault = Some v -> vault <> HOUSE -> authority = AUTHORITY_PUBKEY ->
  0 < active_games v -> 0 <= stake <= locked_amount v ->
  0 <= payout <= U64_MAX ->
  0 <= lamports s vault -> 0 <= lamports s HOUSE ->
  lamports s vault + lamports s HOUSE <= U64_MAX ->
  (stake = 0 ->
     V1.settle_game authority vault stake payout s = Err (Vault InvalidAmount)) /\
  (0 < stake -> 0 < payout -> lamports s HOUSE < payout ->
     V1.settle_game authority vault stake payout s =
       Err (Vault HouseInsufficient)) /\
  (0 < stake -> (payout = 0 \/ payout <= lamports s HOUSE) ->
     exists s', V1.settle_game authority vault stake payout s = Ok (tt, s') /\
       vaults s' vault = Some (mkUserVault (owner v) (locked_amount v - stake)
                                (active_games v - 1) (accum_wager v)) /\
       (forall k, k <> vault -> vaults s' k = vaults s k) /\
       lamports s' vault = lamports s vault + payout /\
       lamports s' HOUSE = lamports s HOUSE - payout /\
       (forall k, k <> vault -> k <> HOUSE -> lamports s' k = lamports s k) /\
       total_volume s' = total_volume s /\ pause_config s' = pause_config s).
Proof.
  intros Hv Hne -> Ha Hst Hp Hb0 Hh0 Hsum.
  destruct (V1.settle_game AUTHORITY_PUBKEY vault stake payout s)
    as [[[] s']|e] eqn:H;
    unfold V1.settle_game in H; run H.
  all: rewrite Hv in *; try discriminate E.
  all: try (injection Hv as ->).
  all: pks.
  all: try (ok_inv H).
  all: repeat (rewrite upd_same in * || rewrite upd_other in * by congruence).
  all: repeat split; intros; try (exfalso; lia); try congruence.
  all: eexists; split; [reflexivity|]; proj_simpl.
  all: repeat (rewrite upd_same || rewrite upd_other by congruence).
  all: repeat split; try lia.
  all: intros k Hk;
    repeat (intros ? || rewrite upd_other by congruence); reflexivity.
Qed.

(** A vault with 500 lamports locked over one game settles its stake with
    a payout of 1000. *)
Lemma settle_game_exact_witness :
  exists s', V1.settle_game AUTHORITY_PUBKEY "vault_alice" 500 1000
               (v1_ledger 0 500 1) = Ok (tt, s') /\
    vaults s' "vault_alice" = Some (mkUserVault "alice" 0 0 0) /\
    lamports s' "vault_alice" = 1000.
Proof.
  destruct (settle_game_exact AUTHORITY_PUBKEY "vault_alice" 500 1000
              (v1_ledger 0 500 1) (mkUserVault "alice" 500 1 0) eq_refl
              ltac:(discriminate) eq_refl ltac:(cbn; lia) ltac:(cbn; lia)
              ltac:(unfold U64_MAX; lia) ltac:(cbn; lia) ltac:(cbn; lia)
              ltac:(cbn; unfold U64_MAX; lia))
    as (_ & _ & H).
  destruct (H ltac:(lia) ltac:(right; cbn; lia))
    as (s' & Hs & Hv & _ & Hl & _).
  exists s'. split; [exact Hs|]. split.
  - rewrite Hv. reflexivity.
  - rewrite Hl. reflexivity.
Defined.

(** The emergency flag survives the maintenance clearing of the gate. *)
Lemma pause_gate_emergency now s :
  emergency_pause (pause_config s) = true ->
  (maintenance_pause (pause_config s) = false \/
   I64_MIN <= now - maintenance_start_time (pause_config s) <= I64_MAX) ->
  V2.pause_gate now s = Err (Vault EmergencyPaused).
Proof.
  intros He Hm. destruct (V2.pause_gate now s) as [[a s']|e] eqn:H;
    run H; try congruence; destruct Hm; try congruence; try lia.
  all: ok_inv H; congruence.
Qed.

Lemma pause_gate_emergency_fails now s a s' :
  emergency_pause (pause_config s) = true ->
  V2.pause_gate now s <> Ok (a, s').
Proof.
  intros He H. run H; congruence.
Qed.

(** C8 (counterexample): with [emergency_pause] set, a deposit of 0
    lamports fails with [InvalidAmount], not with [EmergencyPaused]: the
    amount is checked before the pause gate. *)
Lemma deposit_zero_amount_under_emergency :
  V2.deposit 0 "bob" "bob" "vault_bob" 0
    (paused_ledger (mkPauseConfig false 0 4 true)) = Err (Vault InvalidAmount) /\
  V2.deposit 0 "bob" "bob" "vault_bob" 0
    (paused_ledger (mkPauseConfig false 0 4 true)) <> Err (Vault EmergencyPaused).
Proof.
  split; vm_compute; [reflexivity | discriminate].
Qed.

(** C8 (amended): with [emergency_pause] set, and unless a maintenance pause
    is on with [now - maintenance_start_time] outside [i64], every call of
    [deposit], [withdraw], [bet_and_settle] and [batch_settle] fails,
    whatever [maintenance_pause] and the timer say.  The error is
    [EmergencyPaused] whenever the checks the handler makes before its
    pause gate pass: for [deposit] and [withdraw] an existing vault of the
    given owner and a positive amount, for [bet_and_settle] an existing
    vault and seven bytes of gem data, for [batch_settle] one to ten
    entries, equal list lengths and seven bytes of gem data per entry. *)
Theorem emergency_pause_blocks_gated now s :
  emergency_pause (pause_config s) = true ->
  (maintenance_pause (pause_config s) = false \/
   I64_MIN <= now - maintenance_start_time (pause_config s) <= I64_MAX) ->
  (forall owner_key user vault amount,
     (exists e, V2.deposit now owner_key user vault amount s = Err e) /\
     (forall v, vaults s vault = Some v -> owner v = owner_key -> 0 < amount ->
      V2.deposit now owner_key user vault amount s = Err (Vault EmergencyPaused))) /\
  (forall owner_key vault amount,
     (exists e, V2.withdraw now owner_key vault amount s = Err e) /\
     (forall v, vaults s vault = Some v -> owner v = owner_key -> 0 < amount ->
      V2.withdraw now owner_key vault amount s = Err (Vault EmergencyPaused))) /\
  (forall authority vault stake payout bet_id game_id gem_data,
     (exists e, V2.bet_and_settle now authority vault stake payout bet_id
                  game_id gem_data s = Err e) /\
     (forall v, vaults s vault = Some v -> List.length gem_data = 7%nat ->
      V2.bet_and_settle now authority vault stake payout bet_id game_id
        gem_data s = Err (Vault EmergencyPaused))) /\
  (forall authority stakes payouts bet_ids game_ids gem_datas remaining,
     (exists e, V2.batch_settle now authority stakes payouts bet_ids game_ids
                  gem_datas remaining s = Err e) /\
     ((List.length stakes <= 10)%nat -> (0 < List.length stakes)%nat ->
      List.length payouts = List.length stakes ->
      List.length bet_ids = List.length stakes ->
      List.length game_ids = List.length stakes ->
      List.length gem_datas = List.length stakes ->
      Forall (fun d => List.length d = 7%nat) gem_datas ->
      V2.batch_settle now authority stakes payouts bet_ids game_ids gem_datas
        remaining s = Err (Vault EmergencyPaused))).
Proof.
  intros He Hm. pose proof (pause_gate_emergency now s He Hm) as Hg.
  repeat split.
  - destruct (V2.deposit _ _ _ _ _ s) as [[a s']|e] eqn:H; [|eauto].
    unfold V2.deposit in H. run_gated H.
    exfalso. eapply pause_gate_emergency_fails; eauto.
  - intros v Hv Ho Ha. unfold V2.deposit. cbv [bind load_vault require ret fail].
    rewrite Hv. cbv beta iota. unfold pk_eqb. rewrite Ho, String.eqb_refl.
    destruct (0 <? amount) eqn:Ea; [|lia]. cbv beta iota. rewrite Hg. reflexivity.
  - destruct (V2.withdraw _ _ _ _ s) as [[a s']|e] eqn:H; [|eauto].
    unfold V2.withdraw in H. run_gated H.
    exfalso. eapply pause_gate_emergency_fails; eauto.
  - intros v Hv Ho Ha. unfold V2.withdraw. cbv [bind load_vault require ret fail].
    rewrite Hv. cbv beta iota. unfold pk_eqb. rewrite Ho, String.eqb_refl.
    destruct (0 <? amount) eqn:Ea; [|lia]. cbv beta iota. rewrite Hg. reflexivity.
  - destruct (V2.bet_and_settle _ _ _ _ _ _ _ _ s) as [[a s']|e] eqn:H; [|eauto].
    unfold V2.bet_and_settle in H. run_gated H.
    exfalso. eapply pause_gate_emergency_fails; eauto.
  - intros v Hv Hl. unfold V2.bet_and_settle. cbv [bind load_vault require ret fail].
    rewrite Hv. cbv beta iota. rewrite Hl, Nat.eqb_refl. cbv beta iota.
    rewrite Hg. reflexivity.
  - destruct (V2.batch_settle _ _ _ _ _ _ _ _ s) as [[a s']|e] eqn:H; [|eauto].
    unfold V2.batch_settle in H. run_gated H.
    exfalso. eapply pause_gate_emergency_fails; eauto.
  - intros H1 H2 H3 H4 H5 H6 H7. unfold V2.batch_settle.
    cbv [bind require ret fail].
    assert (Hf : forallb (fun d => Nat.eqb (List.length d) 7) gem_datas = true).
    { apply forallb_forall. intros d Hd. apply Nat.eqb_eq.
      rewrite Forall_forall in H7. exact (H7 d Hd). }
    rewrite Hf, H3, H4, H5, H6, !Nat.eqb_refl.
    apply Nat.leb_le in H1. apply Nat.ltb_lt in H2. rewrite H1, H2.
    cbv beta iota. rewrite Hg. reflexivity.
Qed.

(** A maintenance pause started at time 0 is long over at hour 1000, yet a
    deposit of 1000 lamports fails with [EmergencyPaused]. *)
Lemma emergency_pause_blocks_gated_witness :
  V2.deposit (1000 * 3600) "bob" "bob" "vault_bob" 1000
    (paused_ledger (mkPauseConfig true 0 4 true)) = Err (Vault EmergencyPaused).
Proof.
  destruct (emergency_pause_blocks_gated (1000 * 3600)
              (paused_ledger (mkPauseConfig true 0 4 true)) eq_refl
              ltac:(right; cbn; unfold I64_MIN, I64_MAX; lia))
    as (Hd & _).
  destruct (Hd "bob" "bob" "vault_bob" 1000) as [_ H].
  exact (H (mkUserVault "bob" 0 0 0) eq_refl eq_refl ltac:(lia)).
Defined.

(** ** Batch validation *)

Lemma gem_lengths_ok (gem_datas : list (list Z)) :
  forallb (fun d => Nat.eqb (List.length d) 7) gem_datas = true <->
  Forall (fun d => List.length d = 7%nat) gem_datas.
Proof.
  rewrite forallb_forall, Forall_forall.
  split; intros H d Hd; apply Nat.eqb_eq; auto.
Qed.

(** C9 (counterexample): a batch of one well-formed entry with no vault
    reference at all fails with [EmergencyPaused] under an emergency pause
    and with [Unauthorized] from a caller other than the admin: the count of
    vault references is checked after the pause gate and the authority
    check, so the input-validation error is not what the call returns. *)
Lemma batch_settle_reference_count_checked_late :
  V2.batch_settle 0 ADMIN [1000] [1000] ["bet"] [1] [gems7] []
    (paused_ledger (mkPauseConfig false 0 4 true)) = Err (Vault EmergencyPaused) /\
  V2.batch_settle 0 "mallory" [1000] [1000] ["bet"] [1] [gems7] []
    (paused_ledger (mkPauseConfig false 0 4 false)) = Err (Vault Unauthorized).
Proof.
  split; vm_compute; reflexivity.
Qed.

(** C9 (amended): [batch_settle] fails with [BatchTooLarge] on more than 10
    entries; with at most 10 it fails with [InvalidAmount] before the pause
    gate when there is no entry, when the payouts, bet ids, game ids or gem
    data lists differ in length from the stakes, or when some gem data is
    not seven bytes long; a count of vault references different from the
    number of entries fails with [InvalidAmount] only once the pause gate
    and the admin check have passed.  Each of these failures leaves the
    ledger as it was. *)
Theorem batch_settle_validation now authority stakes payouts bet_ids game_ids
  gem_datas remaining s :
  let n := List.length stakes in
  let r := invoke (V2.batch_settle now authority stakes payouts bet_ids
                     game_ids gem_datas remaining) s in
  ((10 < n)%nat -> r = (Err (Vault BatchTooLarge), s)) /\
  ((n <= 10)%nat ->
   (n = 0%nat \/ List.length payouts <> n \/ List.length bet_ids <> n \/
    List.length game_ids <> n \/ List.length gem_datas <> n \/
    ~ Forall (fun d => List.length d = 7%nat) gem_datas) ->
   r = (Err (Vault InvalidAmount), s)) /\
  ((n <= 10)%nat -> (0 < n)%nat ->
   List.length payouts = n -> List.length bet_ids = n ->
   List.length game_ids = n -> List.length gem_datas = n ->
   Forall (fun d => List.length d = 7%nat) gem_datas ->
   V2.pause_gate now s = Ok (tt, s) -> authority = ADMIN ->
   List.length remaining <> n ->
   r = (Err (Vault InvalidAmount), s)).
Proof.
  intros n r. subst n r. unfold invoke.
  destruct (V2.batch_settle _ _ _ _ _ _ _ _ s) as [[a s']|e] eqn:H;
    unfold V2.batch_settle in H; run_gated H.
  all: repeat match goal with
       | E : forallb _ _ = true |- _ => apply gem_lengths_ok in E
       | E : forallb _ _ = false |- _ =>
           apply not_true_iff_false in E; rewrite gem_lengths_ok in E
       end.
  all: pks.
  all: repeat split; intros; try lia; try congruence; try (ok_inv H; reflexivity).
  all: try (exfalso; match goal with
                  | D : _ \/ _ |- _ =>
                      destruct D as [?|[?|[?|[?|[?|?]]]]]; (lia || contradiction)
                  end).
Qed.

(** One entry and no vault reference, nothing paused, the admin calling. *)
Lemma batch_settle_validation_witness :
  invoke (V2.batch_settle 0 ADMIN [1000] [1000] ["bet"] [1] [gems7] [])
    (bob_ledger 5000 1000000 0) =
  (Err (Vault InvalidAmount), bob_ledger 5000 1000000 0).
Proof.
  destruct (batch_settle_validation 0 ADMIN [1000] [1000] ["bet"] [1] [gems7] []
              (bob_ledger 5000 1000000 0)) as (_ & _ & H).
  apply H; cbn; first [reflexivity | lia | repeat constructor].
Defined.

(** ** The profit-list batch *)

(** C10: in the profit-list [batch_settle], a loss entry subtracts from the
    vault with no check of the vault's balance: when the vault holds less
    than the loss the subtraction itself overflows and the instruction
    aborts (a panic, not a typed error), while a win entry is refused with
    [HouseInsufficient] by its check of the house balance.  The third part
    is the loss entry as the whole batch of one user. *)
Theorem profit_loss_debit_unguarded s :
  (forall vault delta, I64_MIN < delta < 0 -> lamports s vault < - delta ->
     BatchProfit.settle_profit vault delta s = Err Panic) /\
  (forall vault delta, 0 < delta -> lamports s HOUSE < delta ->
     BatchProfit.settle_profit vault delta s = Err (Vault HouseInsufficient)) /\
  (forall find_vault_pda user delta,
     I64_MIN < delta < 0 -> lamports s (find_vault_pda user) < - delta ->
     BatchProfit.batch_settle find_vault_pda AUTHORITY_PUBKEY [user] [delta]
       [BatchProfit.mkAccountRef (find_vault_pda user) true] s = Err Panic).
Proof.
  assert (Hloss : forall vault delta, I64_MIN < delta < 0 ->
            lamports s vault < - delta ->
            BatchProfit.settle_profit vault delta s = Err Panic).
  { intros vault delta Hd Hb.
    destruct (BatchProfit.settle_profit vault delta s) as [[a s']|e] eqn:H;
      unfold BatchProfit.settle_profit in H; run H;
      unfold I64_MIN, I64_MAX in *; try lia; ok_inv H; reflexivity. }
  split; [exact Hloss|]. split.
  - intros vault delta Hd Hb.
    destruct (BatchProfit.settle_profit vault delta s) as [[a s']|e] eqn:H;
      unfold BatchProfit.settle_profit in H; run H; try lia; ok_inv H; reflexivity.
  - intros f user delta Hd Hb.
    unfold BatchProfit.batch_settle, BatchProfit.profit_items.
    cbv [bind require ret fail check_authority_address].
    unfold pk_eqb. rewrite !String.eqb_refl. cbn [List.length Nat.eqb nth_error].
    cbv beta iota. cbn [BatchProfit.key BatchProfit.is_writable].
    rewrite String.eqb_refl. cbv beta iota.
    rewrite (Hloss _ _ Hd Hb). reflexivity.
Qed.

(** A loss of 500 lamports booked against a vault that holds 100. *)
Lemma profit_loss_debit_unguarded_witness :
  BatchProfit.batch_settle (fun u => "vault_" ++ u) AUTHORITY_PUBKEY ["alice"]
    [-500] [BatchProfit.mkAccountRef "vault_alice" true] (v1_ledger 100 0 0) =
  Err Panic.
Proof.
  destruct (profit_loss_debit_unguarded (v1_ledger 100 0 0)) as (_ & _ & H).
  exact (H (fun u => "vault_" ++ u) "alice" (-500)
           ltac:(unfold I64_MIN; lia) ltac:(cbn; lia)).
Defined.

(** * Further properties of the handlers *)

(** Rewrite the function updates of a ledger away. *)
Ltac upds := repeat (rewrite upd_same in * || rewrite upd_other in * by congruence).

(** ** Volume *)
Lemma settle_entry_volume vault stake payout s a s' :
  V2.settle_entry vault stake payout s = Ok (a, s') ->
  total_volume s' = total_volume s + stake_volume stake /\
  pause_config s' = pause_config s.
Proof.
  intros H. unfold V2.settle_entry in H. unfold stake_volume.
  run H; ok_inv H; rewrite ?Z.ltb_irrefl; 
  repeat match goal with
         | Hs : 0 < ?x |- context [0 <? ?x] => rewrite (proj2 (Z.ltb_lt 0 x) Hs)
         | Hs : ?x <= 0 |- context [0 <? ?x] => rewrite (proj2 (Z.ltb_ge x 0) Hs)
         end; split; try reflexivity; lia.
Qed.

Lemma batch_items_volume i remaining items s a s' :
  V2.batch_items i remaining items s = Ok (a, s') ->
  total_volume s' = total_volume s +
    fold_right (fun st acc => stake_volume st + acc) 0 (map fst items) /\
  pause_config s' = pause_config s.
Proof.
  revert i s a s'.
  induction items as [|[stake payout] rest IH]; intros i s a s' H.
  - cbn in H. ok_inv H. cbn. split; [lia | reflexivity].
  - cbn [V2.batch_items] in H. unfold_core H. run_loop H.
    match goal with
    | E : V2.settle_entry _ _ _ _ = Ok _ |- _ => apply settle_entry_volume in E
    end.
    apply IH in H. cbn [map fst fold_right]. intuition (try lia; congruence).
Qed.

Lemma map_fst_combine {A B} (l : list A) (l' : list B) :
  List.length l = List.length l' -> map fst (combine l l') = l.
Proof.
  revert l'; induction l as [|x l IH]; intros [|y l'] Hl; cbn in *; try discriminate;
    [reflexivity|]. f_equal. apply IH. congruence.
Qed.

Lemma settle_profit_frame vault delta s a s' :
  BatchProfit.settle_profit vault delta s = Ok (a, s') ->
  total_volume s' = total_volume s /\ pause_config s' = pause_config s.
Proof.
  intros H. unfold BatchProfit.settle_profit in H. run H; ok_inv H; tauto.
Qed.

Lemma profit_items_frame f i remaining profits users s a s' :
  BatchProfit.profit_items f i remaining profits users s = Ok (a, s') ->
  total_volume s' = total_volume s /\ pause_config s' = pause_config s.
Proof.
  revert i s a s'.
  induction users as [|u rest IH]; intros i s a s' H.
  - cbn in H. ok_inv H. tauto.
  - cbn [BatchProfit.profit_items] in H. run H.
    match goal with
    | E : BatchProfit.settle_profit _ _ _ = Ok _ |- _ => apply settle_profit_frame in E
    end.
    apply IH in H. intuition congruence.
Qed.

(** X2: a successful instruction raises [total_volume] by exactly the
    positive stakes it settles (those of [bet_and_settle] and of
    [batch_settle]) and leaves it unchanged otherwise. *)
Theorem exec_total_volume op s s' :
  exec op s = Ok (tt, s') -> total_volume s' = total_volume s + op_volume op.
Proof.
  intros H. destruct op; cbn [exec op_volume] in *.
  all: match goal with
       | |- context [fold_right _ _ _] => idtac
       | |- context [stake_volume _] => idtac
       | _ => rewrite Z.add_0_r
       end.
  - unfold initialize_vault in H. run H; ok_inv H; reflexivity.
  - unfold V2.deposit in H. run H; ok_inv H; reflexivity.
  - unfold V2.withdraw in H. run H; ok_inv H; reflexivity.
  - unfold V1.place_bet in H. run H; ok_inv H; reflexivity.
  - unfold V1.settle_game in H. run H; ok_inv H; reflexivity.
  - unfold V1.credit_win in H. run H; ok_inv H; reflexivity.
  - unfold V1.debit_loss in H. run H; ok_inv H; reflexivity.
  - unfold V2.bet_and_settle in H. run H.
    all: apply settle_entry_volume in H; tauto.
  - unfold Airdrop.bet_and_settle in H. run H; ok_inv H; reflexivity.
  - unfold V2.batch_settle in H. run H.
    all: apply batch_items_volume in H; rewrite map_fst_combine in H by assumption; tauto.
  - unfold BatchProfit.batch_settle in H. run H.
    all: apply profit_items_frame in H; tauto.
  - unfold V2.start_maintenance_pause in H. run H; ok_inv H; reflexivity.
  - unfold V2.emergency_pause in H. run H; ok_inv H; reflexivity.
  - unfold V2.unpause in H. run H; ok_inv H; reflexivity.
Qed.

Lemma exec_total_volume_witness :
  exists s', exec batch_op open_ledger = Ok (tt, s') /\
    total_volume s' = total_volume open_ledger + op_volume batch_op.
Proof.
  eexists. split; [reflexivity|].
  apply (exec_total_volume batch_op open_ledger). reflexivity.
Defined.


(** ** Lamport conservation *)
Lemma sum_upd_notin f k v ks :
  ~ In k ks -> sum_over (upd f k v) ks = sum_over f ks.
Proof.
  induction ks as [|k0 rest IH]; intros Hn; cbn; [reflexivity|].
  rewrite upd_other by (intros ->; apply Hn; left; reflexivity).
  rewrite IH by (intros Hi; apply Hn; right; exact Hi). reflexivity.
Qed.

Lemma sum_upd f k v ks :
  NoDup ks -> In k ks -> sum_over (upd f k v) ks = sum_over f ks - f k + v.
Proof.
  induction ks as [|k0 rest IH]; intros Hd Hi; [destruct Hi|].
  inversion Hd as [|? ? Hn Hd']; subst. cbn.
  destruct (String.eqb_spec k k0) as [->|Hne].
  - rewrite upd_same, sum_upd_notin by exact Hn. lia.
  - rewrite upd_other by exact Hne.
    destruct Hi as [->|Hi]; [contradiction|]. rewrite IH by assumption. lia.
Qed.

Ltac sum_conserved Hks :=
  unfold sum_lamports; proj_simpl;
  repeat (rewrite sum_upd by (first [exact Hks | assumption | eauto 3 with datatypes]));
  lia.

Lemma settle_entry_sum ks vault stake payout s a s' :
  NoDup ks -> In HOUSE ks -> In vault ks ->
  V2.settle_entry vault stake payout s = Ok (a, s') ->
  sum_lamports ks s' = sum_lamports ks s.
Proof.
  intros Hks Hh Hv H. unfold V2.settle_entry in H. run H; ok_inv H; sum_conserved Hks.
Qed.

Lemma batch_items_sum ks i remaining items s a s' :
  NoDup ks -> In HOUSE ks -> incl remaining ks ->
  V2.batch_items i remaining items s = Ok (a, s') ->
  sum_lamports ks s' = sum_lamports ks s.
Proof.
  intros Hks Hh Hr. revert i s a s'.
  induction items as [|[stake payout] rest IH]; intros i s a s' H.
  - cbn in H. now ok_inv H.
  - cbn [V2.batch_items] in H. unfold_core H. run_loop H.
    match goal with
    | E : V2.settle_entry _ _ _ _ = Ok _ |- _ =>
        apply settle_entry_sum with (ks := ks) in E;
        [| assumption | assumption | apply Hr; eapply nth_error_In; eassumption]
    end.
    apply IH in H. congruence.
Qed.

Lemma settle_profit_sum ks vault delta s a s' :
  NoDup ks -> In HOUSE ks -> In vault ks ->
  BatchProfit.settle_profit vault delta s = Ok (a, s') ->
  sum_lamports ks s' = sum_lamports ks s.
Proof.
  intros Hks Hh Hv H. unfold BatchProfit.settle_profit in H.
  run H; ok_inv H; sum_conserved Hks.
Qed.

Lemma profit_items_sum ks f i remaining profits users s a s' :
  NoDup ks -> In HOUSE ks -> incl (map BatchProfit.key remaining) ks ->
  BatchProfit.profit_items f i remaining profits users s = Ok (a, s') ->
  sum_lamports ks s' = sum_lamports ks s.
Proof.
  intros Hks Hh Hr. revert i s a s'.
  induction users as [|u rest IH]; intros i s a s' H.
  - cbn in H. now ok_inv H.
  - cbn [BatchProfit.profit_items] in H. run H.
    match goal with
    | E : BatchProfit.settle_profit _ _ _ = Ok _ |- _ =>
        apply settle_profit_sum with (ks := ks) in E;
        [| assumption | assumption
         | apply Hr, in_map; eapply nth_error_In; eassumption]
    end.
    apply IH in H. congruence.
Qed.

(** X1: every successful instruction conserves the total lamports of any
    duplicate-free list of accounts that contains the house vault and every
    account the instruction names. *)
Theorem exec_conserves_lamports op s s' ks :
  NoDup ks -> In HOUSE ks -> incl (op_accounts op) ks ->
  exec op s = Ok (tt, s') -> sum_lamports ks s' = sum_lamports ks s.
Proof.
  intros Hks Hh Hincl H.
  assert (Hin : forall k, In k (op_accounts op) -> In k ks) by exact Hincl.
  destruct op; cbn [exec op_accounts] in H, Hin.
  - unfold initialize_vault in H. run H; ok_inv H; sum_conserved Hks.
  - unfold V2.deposit in H. run H; ok_inv H; sum_conserved Hks.
  - unfold V2.withdraw in H. run H; ok_inv H; sum_conserved Hks.
  - unfold V1.place_bet in H. run H; ok_inv H; sum_conserved Hks.
  - unfold V1.settle_game in H. run H; ok_inv H; sum_conserved Hks.
  - unfold V1.credit_win in H. run H; ok_inv H; sum_conserved Hks.
  - unfold V1.debit_loss in H. run H; ok_inv H; sum_conserved Hks.
  - unfold V2.bet_and_settle in H. run H.
    all: apply (settle_entry_sum ks vault stake payout s tt s'); auto with datatypes.
  - unfold Airdrop.bet_and_settle in H. run H; ok_inv H; sum_conserved Hks.
  - unfold V2.batch_settle in H. run H.
    all: eapply batch_items_sum; eauto.
  - unfold BatchProfit.batch_settle in H. run H.
    all: eapply profit_items_sum; eauto.
  - unfold V2.start_maintenance_pause in H. run H; ok_inv H; reflexivity.
  - unfold V2.emergency_pause in H. run H; ok_inv H; reflexivity.
  - unfold V2.unpause in H. run H; ok_inv H; reflexivity.
Qed.

Lemma exec_conserves_lamports_witness :
  exists s', exec batch_op open_ledger = Ok (tt, s') /\
    sum_lamports [HOUSE; "vault_bob"] s' = sum_lamports [HOUSE; "vault_bob"] open_ledger.
Proof.
  eexists. split; [reflexivity|].
  apply (exec_conserves_lamports batch_op open_ledger _ [HOUSE; "vault_bob"]).
  - repeat constructor; cbn; intuition discriminate.
  - cbn; auto.
  - intros k Hk; cbn in *; intuition.
  - reflexivity.
Defined.


(** ** The pause configuration *)
(** X3: among the modelled instructions (every handler except
    [initialize_pause_config] and [close_pause_config]), none changes the
    maintenance duration when it succeeds; all except [unpause] keep a set
    emergency flag set; and all except [start_maintenance_pause],
    [emergency_pause] and [unpause] leave the pause configuration
    unchanged. *)
Theorem exec_pause_config op s s' :
  exec op s = Ok (tt, s') ->
  maintenance_duration_hours (pause_config s') =
    maintenance_duration_hours (pause_config s) /\
  ((forall au, op <> OpUnpause au) ->
   emergency_pause (pause_config s) = true ->
   emergency_pause (pause_config s') = true) /\
  ((forall now au, op <> OpStartMaintenancePause now au) ->
   (forall au, op <> OpEmergencyPause au) ->
   (forall au, op <> OpUnpause au) ->
   pause_config s' = pause_config s).
Proof.
  intros H.
  enough (Hf : match op with
               | OpStartMaintenancePause _ _ | OpEmergencyPause _ | OpUnpause _ =>
                   maintenance_duration_hours (pause_config s') =
                     maintenance_duration_hours (pause_config s) /\
                   ((forall au, op <> OpUnpause au) ->
                    emergency_pause (pause_config s) = true ->
                    emergency_pause (pause_config s') = true)
               | _ => pause_config s' = pause_config s
               end).
  { destruct op;
      first
        [ split; [rewrite Hf; reflexivity
                 | split; [intros _ He; rewrite Hf; exact He | intros; exact Hf]]
        | destruct Hf as [Hd He]; split; [exact Hd | split; [exact He |]];
          intros H1 H2 H3; exfalso;
          first [eapply H1; reflexivity | eapply H2; reflexivity
                | eapply H3; reflexivity] ]. }
  destruct op; cbn [exec] in H.
  - unfold initialize_vault in H. run H; ok_inv H; reflexivity.
  - unfold V2.deposit in H. run H; ok_inv H; reflexivity.
  - unfold V2.withdraw in H. run H; ok_inv H; reflexivity.
  - unfold V1.place_bet in H. run H; ok_inv H; reflexivity.
  - unfold V1.settle_game in H. run H; ok_inv H; reflexivity.
  - unfold V1.credit_win in H. run H; ok_inv H; reflexivity.
  - unfold V1.debit_loss in H. run H; ok_inv H; reflexivity.
  - unfold V2.bet_and_settle in H. run H.
    all: apply settle_entry_volume in H; tauto.
  - unfold Airdrop.bet_and_settle in H. run H; ok_inv H; reflexivity.
  - unfold V2.batch_settle in H. run H.
    all: apply batch_items_volume in H; tauto.
  - unfold BatchProfit.batch_settle in H. run H.
    all: apply profit_items_frame in H; tauto.
  - unfold V2.start_maintenance_pause in H. run H; ok_inv H; split; auto.
  - unfold V2.emergency_pause in H. run H; ok_inv H; split; auto.
  - unfold V2.unpause in H. run H; ok_inv H; split; [reflexivity|].
    intros Hn. exfalso. eapply Hn. reflexivity.
Qed.

Lemma exec_pause_config_witness :
  exists s',
    exec (OpStartMaintenancePause 100 ADMIN)
      (paused_ledger (mkPauseConfig false 0 4 true)) = Ok (tt, s') /\
    maintenance_duration_hours (pause_config s') = 4 /\
    emergency_pause (pause_config s') = true.
Proof.
  eexists. split; [reflexivity|].
  destruct (exec_pause_config (OpStartMaintenancePause 100 ADMIN)
              (paused_ledger (mkPauseConfig false 0 4 true)) _ eq_refl) as (H1 & H2 & _).
  split; [exact H1|]. apply H2; [discriminate | reflexivity].
Defined.


(** ** Pausing and unpausing *)
Ltac unfold_core_goal :=
  cbv beta iota zeta delta [bind ret fail require get put get_lamports
    set_lamports sub_lamports add_lamports load_vault store_vault
    get_total_volume set_total_volume get_pause_config set_pause_config
    checked_add_u64 check_authority_address system_transfer
    check_uninitialized Airdrop.lift V2.index].


(** X4: [unpause] by the multisig always succeeds and leaves a ledger the
    pause gate lets through at any time, with lamports, vaults and volume
    untouched. *)
Theorem unpause_reopens now s :
  exists s', V2.unpause MULTISIG s = Ok (tt, s') /\
    V2.pause_gate now s' = Ok (tt, s') /\
    lamports s' = lamports s /\ vaults s' = vaults s /\
    total_volume s' = total_volume s.
Proof.
  destruct (V2.unpause MULTISIG s) as [[[] s']|e] eqn:H.
  - exists s'. split; [reflexivity|].
    unfold V2.unpause in H. run H; ok_inv H.
    unfold V2.pause_gate. cbv [bind ret require get_pause_config]. cbn. repeat split.
  - exfalso. unfold V2.unpause in H. run H. unfold pk_eqb in *. rewrite String.eqb_refl in *. discriminate.
Qed.

Lemma as_u8_small x : 0 <= x < 256 -> as_u8 x = x.
Proof. intros Hx. unfold as_u8. apply Z.mod_small. exact Hx. Qed.

(** X5: a maintenance pause started at [now] by the multisig or the admin,
    with no emergency, blocks the gate for the configured number of hours
    and lets it through afterwards (within the 256 hours an [u8] of elapsed
    hours can count). *)
Theorem maintenance_window now au s :
  (au = MULTISIG \/ au = ADMIN) ->
  emergency_pause (pause_config s) = false ->
  0 <= maintenance_duration_hours (pause_config s) <= 255 ->
  exists s', V2.start_maintenance_pause now au s = Ok (tt, s') /\
    (forall t, now <= t < now + maintenance_duration_hours (pause_config s) * 3600 ->
       V2.pause_gate t s' = Err (Vault MaintenancePaused)) /\
    (forall t, now + maintenance_duration_hours (pause_config s) * 3600 <= t <
               now + 256 * 3600 ->
       V2.pause_gate t s' = Ok (tt, s')).
Proof.
  intros Hau Hem Hd.
  set (dur := maintenance_duration_hours (pause_config s)) in *.
  exists (mkLedger (lamports s) (vaults s) (total_volume s)
            (mkPauseConfig true now dur (emergency_pause (pause_config s)))).
  assert (Hq : forall t, now <= t < now + 256 * 3600 ->
            in_i64 (t - now) = true /\
            as_u8 (Z.quot (t - now) 3600) = (t - now) / 3600 /\
            0 <= (t - now) / 3600 < 256).
  { intros t Ht. rewrite Z.quot_div_nonneg by lia.
    assert (0 <= (t - now) / 3600 < 256).
    { split; [apply Z.div_pos; lia | apply Z.div_lt_upper_bound; lia]. }
    rewrite as_u8_small by lia. unfold in_i64, I64_MIN, I64_MAX.
    repeat split; try lia. }
  split; [|split].
  - unfold V2.start_maintenance_pause. unfold_core_goal.
    destruct Hau as [-> | ->]; reflexivity.
  - intros t Ht. destruct (Hq t ltac:(lia)) as [Hi [Hu Hr]].
    unfold V2.pause_gate. unfold_core_goal. cbn [pause_config maintenance_pause
      maintenance_start_time maintenance_duration_hours emergency_pause].
    rewrite Hi, Hu. cbn [negb].
    assert (Hlt : (t - now) / 3600 < dur) by (apply Z.div_lt_upper_bound; lia).
    apply Z.leb_gt in Hlt. rewrite Hlt, Hem. reflexivity.
  - intros t Ht. destruct (Hq t ltac:(lia)) as [Hi [Hu Hr]].
    unfold V2.pause_gate. unfold_core_goal. cbn [pause_config maintenance_pause
      maintenance_start_time maintenance_duration_hours emergency_pause].
    rewrite Hi, Hu. cbn [negb].
    assert (Hle : dur <= (t - now) / 3600) by (apply Z.div_le_lower_bound; lia).
    apply Z.leb_le in Hle. rewrite Hle, Hem. reflexivity.
Qed.

Lemma maintenance_window_witness :
  exists s', V2.start_maintenance_pause 100 ADMIN open_ledger = Ok (tt, s') /\
    V2.pause_gate (100 + 3600) s' = Err (Vault MaintenancePaused) /\
    V2.pause_gate (100 + 4 * 3600) s' = Ok (tt, s').
Proof.
  destruct (maintenance_window 100 ADMIN open_ledger (or_intror eq_refl) eq_refl
              ltac:(cbn; lia)) as (s' & H1 & H2 & H3).
  exists s'. split; [exact H1|]. split.
  - apply H2. cbn. lia.
  - apply H3. cbn. lia.
Defined.


(** ** The pause status *)
(** X6: [get_pause_status] agrees with the pause gate: Active and
    MaintenanceComplete when the gate passes, Maintenance with a positive
    number of hours when it answers MaintenancePaused, Emergency when it
    fails, and the same panic when the time difference overflows. *)
Theorem pause_status_matches_gate now s :
  match V2Admin.get_pause_status now s with
  | Ok (V2Admin.StatusActive, s1) | Ok (V2Admin.StatusMaintenanceComplete, s1) =>
      s1 = s /\ V2.pause_gate now s = Ok (tt, s)
  | Ok (V2Admin.StatusMaintenance r, s1) =>
      s1 = s /\ 0 < r /\ V2.pause_gate now s = Err (Vault MaintenancePaused)
  | Ok (V2Admin.StatusEmergency, s1) =>
      s1 = s /\ exists e, V2.pause_gate now s = Err e
  | Err e => e = Panic /\ V2.pause_gate now s = Err Panic
  end.
Proof.
  unfold V2Admin.get_pause_status, V2.pause_gate.
  cbv beta iota zeta delta [bind ret fail require get_pause_config].
  destruct (pause_config s) as [mp st dur em]; cbn [maintenance_pause
    maintenance_start_time maintenance_duration_hours emergency_pause].
  destruct em, mp; cbn.
  - destruct (in_i64 (now - st)); cbn; [|eauto].
    destruct (dur <=? as_u8 (Z.quot (now - st) 3600)); cbn; eauto.
  - eauto.
  - destruct (in_i64 (now - st)); cbn; [|auto].
    unfold saturating_sub.
    destruct (dur <=? as_u8 (Z.quot (now - st) 3600)) eqn:E; bools; cbn.
    + replace (0 <? Z.max 0 (dur - as_u8 (Z.quot (now - st) 3600))) with false
        by (symmetry; apply Z.ltb_ge; lia). auto.
    + replace (0 <? Z.max 0 (dur - as_u8 (Z.quot (now - st) 3600))) with true
        by (symmetry; apply Z.ltb_lt; lia). repeat split; lia.
  - auto.
Qed.

(** ** Authority rotation *)
(** X7: after [change_authority] sets a new multisig key, the new key is
    still refused by [change_authority], [emergency_pause] and [unpause],
    while the hard-coded [MULTISIG] keeps succeeding. *)
Theorem change_authority_rotation_ineffective hv new_key new_admin :
  new_key <> MULTISIG ->
  exists hv', V2Admin.change_authority MULTISIG hv (Some new_key) new_admin = Ok hv' /\
    V2Admin.multisig_authority hv' = new_key /\
    (forall nm na, V2Admin.change_authority new_key hv' nm na = Err (Vault Unauthorized)) /\
    (forall s, V2.emergency_pause new_key s = Err (Vault Unauthorized)) /\
    (forall s, V2.unpause new_key s = Err (Vault Unauthorized)) /\
    (forall nm na, exists hv'', V2Admin.change_authority MULTISIG hv' nm na = Ok hv'').
Proof.
  intros Hne.
  assert (Hf : pk_eqb new_key MULTISIG = false) by (apply String.eqb_neq; exact Hne).
  assert (Ht : pk_eqb MULTISIG MULTISIG = true) by apply String.eqb_refl.
  unfold V2Admin.change_authority. rewrite Ht. cbn [negb].
  eexists. split; [reflexivity|].
  split; [destruct new_admin; reflexivity|].
  split; [intros; rewrite Hf; reflexivity|].
  split; [intros s; unfold V2.emergency_pause; cbv [bind require fail]; rewrite Hf; reflexivity|].
  split; [intros s; unfold V2.unpause; cbv [bind require fail]; rewrite Hf; reflexivity|].
  intros; eexists; reflexivity.
Qed.

Lemma change_authority_rotation_ineffective_witness :
  ADMIN <> MULTISIG /\
  exists hv', V2Admin.change_authority MULTISIG V2Admin.initial_authorities (Some ADMIN) None = Ok hv' /\
    V2Admin.multisig_authority hv' = ADMIN /\
    (forall nm na, V2Admin.change_authority ADMIN hv' nm na = Err (Vault Unauthorized)) /\
    (forall s, V2.emergency_pause ADMIN s = Err (Vault Unauthorized)) /\
    (forall s, V2.unpause ADMIN s = Err (Vault Unauthorized)) /\
    (forall nm na, exists hv'', V2Admin.change_authority MULTISIG hv' nm na = Ok hv'').
Proof.
  assert (H : ADMIN <> MULTISIG) by (vm_compute; discriminate).
  split; [exact H|].
  exact (change_authority_rotation_ineffective V2Admin.initial_authorities ADMIN None H).
Defined.

(** ** Credits and debits *)
Ltac frame_keys :=
  intros ? ? ?; repeat rewrite upd_other by congruence; reflexivity.

(** X8: [credit_win] fails with HouseInsufficient when the house holds less
    than the amount, and otherwise moves exactly the amount from the house
    to the vault, touching nothing else. *)
Theorem credit_win_effect vault amount s v :
  vaults s vault = Some v -> vault <> HOUSE -> 0 < amount ->
  0 <= lamports s vault -> 0 <= lamports s HOUSE ->
  lamports s vault + lamports s HOUSE <= U64_MAX ->
  (lamports s HOUSE < amount ->
     V1.credit_win AUTHORITY_PUBKEY vault amount s = Err (Vault HouseInsufficient)) /\
  (amount <= lamports s HOUSE ->
     exists s', V1.credit_win AUTHORITY_PUBKEY vault amount s = Ok (tt, s') /\
       lamports s' vault = lamports s vault + amount /\
       lamports s' HOUSE = lamports s HOUSE - amount /\
       (forall k, k <> vault -> k <> HOUSE -> lamports s' k = lamports s k) /\
       vaults s' = vaults s /\ total_volume s' = total_volume s /\
       pause_config s' = pause_config s).
Proof.
  intros Hv Hvh Ha H0 H1 Hsum.
  destruct (V1.credit_win AUTHORITY_PUBKEY vault amount s) as [[[] s']|e] eqn:H;
    unfold V1.credit_win in H; run H; pks; try discriminate;
    try (injection H as <-); try (exfalso; lia); split; intros; try (exfalso; lia);
    try reflexivity.
  all: try (unfold pk_eqb in *; rewrite String.eqb_refl in *; discriminate).
  all: try (eexists; split; [reflexivity|]; proj_simpl;
       repeat (rewrite upd_same || rewrite upd_other by congruence);
       repeat split; try lia; frame_keys).
  all: try congruence.
  all: repeat rewrite upd_other in * by congruence; exfalso; unfold U64_MAX in *; lia.
Qed.

Lemma credit_win_effect_witness :
  exists s', V1.credit_win AUTHORITY_PUBKEY "vault_alice" 1000 (v1_ledger 5000 0 0) = Ok (tt, s') /\
    lamports s' "vault_alice" = 6000 /\ lamports s' HOUSE = 999999000.
Proof.
  destruct (credit_win_effect "vault_alice" 1000 (v1_ledger 5000 0 0) (mkUserVault "alice" 0 0 0)
              eq_refl ltac:(discriminate) ltac:(lia) ltac:(vm_compute; discriminate)
              ltac:(vm_compute; discriminate) ltac:(vm_compute; discriminate))
    as [_ Hok].
  destruct (Hok ltac:(vm_compute; discriminate)) as [s' [Hs [Hv [Hh _]]]].
  exists s'. split; [exact Hs|]. rewrite Hv, Hh. split; reflexivity.
Defined.

(** X9: [debit_loss] fails with InsufficientFunds when the vault holds less
    than the amount, and otherwise moves exactly the amount from the vault
    to the house, touching nothing else. *)
Theorem debit_loss_effect vault amount s v :
  vaults s vault = Some v -> vault <> HOUSE -> 0 < amount ->
  0 <= lamports s vault -> 0 <= lamports s HOUSE ->
  lamports s vault + lamports s HOUSE <= U64_MAX ->
  (lamports s vault < amount ->
     V1.debit_loss AUTHORITY_PUBKEY vault amount s = Err (Vault InsufficientFunds)) /\
  (amount <= lamports s vault ->
     exists s', V1.debit_loss AUTHORITY_PUBKEY vault amount s = Ok (tt, s') /\
       lamports s' vault = lamports s vault - amount /\
       lamports s' HOUSE = lamports s HOUSE + amount /\
       (forall k, k <> vault -> k <> HOUSE -> lamports s' k = lamports s k) /\
       vaults s' = vaults s /\ total_volume s' = total_volume s /\
       pause_config s' = pause_config s).
Proof.
  intros Hv Hvh Ha H0 H1 Hsum.
  destruct (V1.debit_loss AUTHORITY_PUBKEY vault amount s) as [[[] s']|e] eqn:H;
    unfold V1.debit_loss in H; run H; pks; try discriminate;
    try (injection H as <-); try (exfalso; lia); split; intros; try (exfalso; lia);
    try reflexivity.
  all: try (eexists; split; [reflexivity|]; proj_simpl;
       repeat (rewrite upd_same || rewrite upd_other by congruence);
       repeat split; try lia; frame_keys).
  all: try congruence.
  all: repeat rewrite upd_other in * by congruence; exfalso; unfold U64_MAX in *; lia.
Qed.

Lemma debit_loss_effect_witness :
  exists s', V1.debit_loss AUTHORITY_PUBKEY "vault_alice" 1000 (v1_ledger 5000 0 0) = Ok (tt, s') /\
    lamports s' "vault_alice" = 4000 /\ lamports s' HOUSE = 1000001000.
Proof.
  destruct (debit_loss_effect "vault_alice" 1000 (v1_ledger 5000 0 0) (mkUserVault "alice" 0 0 0)
              eq_refl ltac:(discriminate) ltac:(lia) ltac:(vm_compute; discriminate)
              ltac:(vm_compute; discriminate) ltac:(vm_compute; discriminate))
    as [_ Hok].
  destruct (Hok ltac:(vm_compute; discriminate)) as [s' [Hs [Hv [Hh _]]]].
  exists s'. split; [exact Hs|]. rewrite Hv, Hh. split; reflexivity.
Defined.

(** ** A bet and its settlement *)
(** X10: a [place_bet] followed by the matching [settle_game] succeeds,
    restores the vault record, and leaves the vault with [stake] less and
    [payout] more, the house with the opposite change, and every other
    account unchanged. *)
Theorem place_then_settle vault stake payout s v :
  vaults s vault = Some v -> vault <> HOUSE ->
  0 <= locked_amount v -> 0 <= active_games v < U32_MAX ->
  locked_amount v + stake <= U64_MAX ->
  0 < stake -> stake <= saturating_sub (lamports s vault) (locked_amount v) ->
  0 <= lamports s vault -> 0 <= lamports s HOUSE ->
  lamports s vault + lamports s HOUSE <= U64_MAX ->
  0 <= payout <= lamports s HOUSE + stake ->
  exists s1 s2,
    V1.place_bet AUTHORITY_PUBKEY vault stake s = Ok (tt, s1) /\
    V1.settle_game AUTHORITY_PUBKEY vault stake payout s1 = Ok (tt, s2) /\
    vaults s2 vault = Some v /\
    lamports s2 vault = lamports s vault - stake + payout /\
    lamports s2 HOUSE = lamports s HOUSE + stake - payout /\
    (forall k, k <> vault -> k <> HOUSE -> lamports s2 k = lamports s k /\
                                           vaults s2 k = vaults s k).
Proof.
  intros Hv Hvh Hl Ha Hlu Hs Hav H0 H1 Hsum Hp.
  destruct (V1.place_bet AUTHORITY_PUBKEY vault stake s) as [[[] s1]|e] eqn:H;
    unfold V1.place_bet in H; run H; pks; try congruence;
    try (rewrite Hv in *; injection E as <-);
    unfold saturating_sub in *; upds;
    try (exfalso; unfold U32_MAX, U64_MAX in *; lia).
  ok_inv H. clear H.
  match goal with |- context [Ok (tt, ?L) = Ok (tt, _)] =>
    exists L end.
  match goal with |- context [V1.settle_game _ _ _ _ ?s1] =>
    destruct (V1.settle_game AUTHORITY_PUBKEY vault stake payout s1) as [[[] s2]|e] eqn:H' end;
    unfold V1.settle_game in H'; run H'; pks; upds; try congruence;
    try (injection E as <-); cbn in *;
    try (exfalso; unfold U32_MAX, U64_MAX in *; lia).
  all: injection Hv as <-;
    repeat match goal with Hx : Some _ = Some _ |- _ => injection Hx as <- end;
    proj_simpl; try (exfalso; unfold U32_MAX, U64_MAX in *; lia).
  all: ok_inv H'; eexists; split; [reflexivity|]; split; [reflexivity|]; proj_simpl; upds.
  all: repeat split; try lia.
  all: try (destruct u; cbn in *; do 2 f_equal; lia).
  all: upds; reflexivity.
Qed.

Lemma place_then_settle_witness :
  exists s1 s2,
    V1.place_bet AUTHORITY_PUBKEY "vault_alice" 3000 (v1_ledger 5000 0 0) = Ok (tt, s1) /\
    V1.settle_game AUTHORITY_PUBKEY "vault_alice" 3000 6000 s1 = Ok (tt, s2) /\
    vaults s2 "vault_alice" = Some (mkUserVault "alice" 0 0 0) /\
    lamports s2 "vault_alice" = 8000.
Proof.
  destruct (place_then_settle "vault_alice" 3000 6000 (v1_ledger 5000 0 0)
              (mkUserVault "alice" 0 0 0) eq_refl ltac:(discriminate)
              ltac:(cbn; lia) ltac:(cbn; unfold U32_MAX; lia) ltac:(cbn; unfold U64_MAX; lia)
              ltac:(lia) ltac:(vm_compute; discriminate)
              ltac:(vm_compute; discriminate) ltac:(vm_compute; discriminate)
              ltac:(vm_compute; discriminate) ltac:(vm_compute; split; discriminate))
    as [s1 [s2 [H1 [H2 [H3 [H4 _]]]]]].
  exists s1, s2. split; [exact H1|]. split; [exact H2|]. split; [exact H3|].
  rewrite H4. reflexivity.
Defined.

(** ** Deposit and withdraw *)
Lemma pause_gate_same_config now s s1 :
  pause_config s1 = pause_config s ->
  V2.pause_gate now s = Ok (tt, s) -> V2.pause_gate now s1 = Ok (tt, s1).
Proof.
  intros Hc. unfold V2.pause_gate.
  cbv [bind ret fail require get_pause_config]. rewrite Hc.
  destruct (pause_config s) as [mp st d em]; cbn.
  destruct mp; cbn; [destruct (negb (in_i64 (now - st))); cbn;
    [discriminate | destruct (d <=? as_u8 (Z.quot (now - st) 3600)); cbn] |].
  all: destruct em; cbn; try discriminate; auto.
Qed.

(** After [run_gated], the gate's known result [Hg] has been split along
    the branches of the handler: keep the consistent one. *)
Ltac gate_fix Hg := first [discriminate Hg | injection Hg as -> -> | idtac].

(** X11: in the v2 program, when the gate is open, an owner who deposits an
    amount and withdraws it again gets back to the ledger they started from
    (lamports, vaults, volume and pause configuration). *)
Theorem v2_deposit_withdraw_roundtrip now owner_key vault amount s v :
  vaults s vault = Some v -> owner v = owner_key -> owner_key <> vault ->
  active_games v = 0 -> V2.pause_gate now s = Ok (tt, s) ->
  0 < amount <= lamports s owner_key ->
  0 <= lamports s vault -> lamports s owner_key + lamports s vault <= U64_MAX ->
  exists s1 s2,
    V2.deposit now owner_key owner_key vault amount s = Ok (tt, s1) /\
    V2.withdraw now owner_key vault amount s1 = Ok (tt, s2) /\
    lamports s1 vault = lamports s vault + amount /\
    (forall k, lamports s2 k = lamports s k) /\
    vaults s2 = vaults s /\ total_volume s2 = total_volume s /\
    pause_config s2 = pause_config s.
Proof.
  intros Hv Ho Hne Ha Hg Hamt H0 Hsum.
  assert (Hgen : forall s1, pause_config s1 = pause_config s ->
                 V2.pause_gate now s1 = Ok (tt, s1))
    by (intros s1 Hc; exact (pause_gate_same_config now s s1 Hc Hg)).
  destruct (V2.deposit now owner_key owner_key vault amount s) as [[[] s1]|e] eqn:H;
    unfold V2.deposit in H; run_gated H; gate_fix Hg; pks; upds; try congruence;
    try (exfalso; unfold U64_MAX in *; lia).
  ok_inv H.
  match goal with |- context [Ok (tt, ?L) = Ok (tt, _)] => exists L end.
  match goal with |- context [V2.withdraw _ _ _ _ ?s1] =>
    assert (Hg1 : V2.pause_gate now s1 = Ok (tt, s1))
      by (apply Hgen; reflexivity);
    destruct (V2.withdraw now (owner v) vault amount s1) as [[[] s2]|e] eqn:H'
  end;
    unfold V2.withdraw in H'; run_gated H'; gate_fix Hg1; pks; proj_simpl; upds;
    try congruence; try (exfalso; unfold U64_MAX in *; lia).
  ok_inv H'. eexists. split; [reflexivity|]. split; [reflexivity|]. proj_simpl.
  upds. split; [lia|]. repeat split.
  intros k. destruct (String.eqb_spec k vault) as [->|Hk1]; [upds; lia|].
  destruct (String.eqb_spec k (owner v)) as [->|Hk2]; [upds; lia|].
  upds; reflexivity.

Qed.


Lemma v2_deposit_withdraw_roundtrip_witness :
  exists s1 s2,
    V2.deposit 0 "bob" "bob" "vault_bob" 1000000
      (paused_ledger (mkPauseConfig false 0 4 false)) = Ok (tt, s1) /\
    V2.withdraw 0 "bob" "vault_bob" 1000000 s1 = Ok (tt, s2) /\
    lamports s1 "vault_bob" = 1005000 /\
    lamports s2 "bob" = 1000000 /\ lamports s2 "vault_bob" = 5000.
Proof.
  destruct (v2_deposit_withdraw_roundtrip 0 "bob" "vault_bob" 1000000
              (paused_ledger (mkPauseConfig false 0 4 false)) (mkUserVault "bob" 0 0 0)
              eq_refl eq_refl ltac:(discriminate) eq_refl ltac:(vm_compute; reflexivity)
              ltac:(cbn; unfold U64_MAX; lia) ltac:(cbn; unfold U64_MAX; lia)
              ltac:(cbn; unfold U64_MAX; lia))
    as [s1 [s2 [H1 [H2 [H3 [H4 _]]]]]].
  exists s1, s2. split; [exact H1|]. split; [exact H2|].
  rewrite H3, !H4. repeat split.
Defined.

(** X12: the same round trip holds for the deposit and withdraw of the older
    generations, which have no pause gate. *)
Theorem legacy_deposit_withdraw_roundtrip owner_key vault amount s v :
  vaults s vault = Some v -> owner v = owner_key -> owner_key <> vault ->
  active_games v = 0 ->
  0 < amount <= lamports s owner_key ->
  0 <= lamports s vault -> lamports s owner_key + lamports s vault <= U64_MAX ->
  exists s1 s2,
    Legacy.deposit owner_key owner_key vault amount s = Ok (tt, s1) /\
    Legacy.withdraw owner_key vault amount s1 = Ok (tt, s2) /\
    lamports s1 vault = lamports s vault + amount /\
    (forall k, lamports s2 k = lamports s k) /\
    vaults s2 = vaults s /\ total_volume s2 = total_volume s /\
    pause_config s2 = pause_config s.
Proof.
  intros Hv Ho Hne Ha Hamt H0 Hsum.
  destruct (Legacy.deposit owner_key owner_key vault amount s) as [[[] s1]|e] eqn:H;
    unfold Legacy.deposit in H; run H; pks; upds; try congruence;
    try (exfalso; unfold U64_MAX in *; lia).
  ok_inv H.
  match goal with |- context [Ok (tt, ?L) = Ok (tt, _)] => exists L end.
  match goal with |- context [Legacy.withdraw _ _ _ ?s1] =>
    destruct (Legacy.withdraw (owner v) vault amount s1) as [[[] s2]|e] eqn:H'
  end;
    unfold Legacy.withdraw in H'; run H'; pks; proj_simpl; upds;
    try congruence; try (exfalso; unfold U64_MAX in *; lia).
  ok_inv H'. eexists. split; [reflexivity|]. split; [reflexivity|]. proj_simpl.
  upds. split; [lia|]. repeat split.
  intros k. destruct (String.eqb_spec k vault) as [->|Hk1]; [upds; lia|].
  destruct (String.eqb_spec k (owner v)) as [->|Hk2]; [upds; lia|].
  upds; reflexivity.
Qed.

Lemma legacy_deposit_withdraw_roundtrip_witness :
  exists s1 s2,
    Legacy.deposit "bob" "bob" "vault_bob" 1000000
      (paused_ledger (mkPauseConfig false 0 4 true)) = Ok (tt, s1) /\
    Legacy.withdraw "bob" "vault_bob" 1000000 s1 = Ok (tt, s2) /\
    lamports s1 "vault_bob" = 1005000 /\
    lamports s2 "bob" = 1000000 /\ lamports s2 "vault_bob" = 5000.
Proof.
  destruct (legacy_deposit_withdraw_roundtrip "bob" "vault_bob" 1000000
              (paused_ledger (mkPauseConfig false 0 4 true)) (mkUserVault "bob" 0 0 0)
              eq_refl eq_refl ltac:(discriminate) eq_refl
              ltac:(cbn; unfold U64_MAX; lia) ltac:(cbn; unfold U64_MAX; lia)
              ltac:(cbn; unfold U64_MAX; lia))
    as [s1 [s2 [H1 [H2 [H3 [H4 _]]]]]].
  exists s1, s2. split; [exact H1|]. split; [exact H2|].
  rewrite H3, !H4. repeat split.
Defined.

(** ** The airdrop settlement *)
(** X13: the airdrop [bet_and_settle] fails with HouseInsufficient exactly
    when the payout exceeds the house balance plus the stake, and otherwise
    stores the new accumulated wager and moves [payout - stake] from the
    house to the vault, touching no other account. *)
Theorem airdrop_bet_and_settle_effect vault stake payout multiplier roll_hash s v
  accum' rolls gems :
  vaults s vault = Some v -> vault <> HOUSE ->
  0 < stake -> 50 <= multiplier <= 300 -> 0 <= payout ->
  0 <= locked_amount v -> locked_amount v + stake <= U64_MAX ->
  stake <= saturating_sub (lamports s vault) (locked_amount v) ->
  0 <= lamports s vault -> 0 <= lamports s HOUSE ->
  lamports s vault + lamports s HOUSE <= U64_MAX ->
  accum_wager v + stake <= U64_MAX ->
  Airdrop.gem_rolls roll_hash multiplier (accum_wager v + stake) = Ok (accum', rolls, gems) ->
  (lamports s HOUSE + stake < payout ->
     Airdrop.bet_and_settle AUTHORITY_PUBKEY vault stake payout multiplier roll_hash s =
     Err (Vault HouseInsufficient)) /\
  (payout <= lamports s HOUSE + stake ->
     exists s',
       Airdrop.bet_and_settle AUTHORITY_PUBKEY vault stake payout multiplier roll_hash s =
       Ok (tt, s') /\
       vaults s' vault =
         Some (mkUserVault (owner v) (locked_amount v) (active_games v) accum') /\
       lamports s' vault = lamports s vault - stake + payout /\
       lamports s' HOUSE = lamports s HOUSE + stake - payout /\
       (forall k, k <> vault -> k <> HOUSE ->
          lamports s' k = lamports s k /\ vaults s' k = vaults s k) /\
       total_volume s' = total_volume s /\ pause_config s' = pause_config s).
Proof.
  intros Hv Hvh Hs Hm Hp Hl Hlu Hav H0 H1 Hsum Hacc Hg.
  unfold saturating_sub in Hav.
  destruct (Airdrop.bet_and_settle AUTHORITY_PUBKEY vault stake payout multiplier roll_hash s)
    as [[[] s']|e] eqn:H;
    unfold Airdrop.bet_and_settle in H; run H; pks; proj_simpl; upds; try congruence;
    rewrite ?Hv in *;
    repeat match goal with Hx : Some _ = Some _ |- _ => injection Hx as <- end;
    unfold saturating_sub in *;
    try (exfalso; unfold U64_MAX in *; lia).
  all: try (match goal with E' : Airdrop.gem_rolls _ _ _ = Err _ |- _ =>
              rewrite Hg in E'; discriminate E' end).
  all: split; intros; try (exfalso; lia); try (injection H as <-; reflexivity).
  all: ok_inv H; match goal with E' : Airdrop.gem_rolls _ _ _ = Ok (_, _, _) |- _ =>
              rewrite Hg in E'; injection E' as <- <- <- end.
  all: eexists; split; [reflexivity|]; proj_simpl; upds.
  all: repeat split; try lia.
  all: try (do 2 f_equal; lia).
  all: upds; reflexivity.
Qed.

Lemma airdrop_bet_and_settle_effect_witness :
  exists s',
    Airdrop.bet_and_settle AUTHORITY_PUBKEY "vault_alice" 1000 2000 100 (fun _ => 0)
      (v1_ledger 5000 0 0) = Ok (tt, s') /\
    vaults s' "vault_alice" = Some (mkUserVault "alice" 0 0 1000) /\
    lamports s' "vault_alice" = 6000.
Proof.
  destruct (airdrop_bet_and_settle_effect "vault_alice" 1000 2000 100 (fun _ => 0)
              (v1_ledger 5000 0 0) (mkUserVault "alice" 0 0 0) 1000 0 []
              eq_refl ltac:(discriminate) ltac:(lia) ltac:(lia) ltac:(lia)
              ltac:(cbn; lia) ltac:(cbn; unfold U64_MAX; lia)
              ltac:(cbn; unfold saturating_sub; lia)
              ltac:(cbn; lia) ltac:(cbn; lia) ltac:(cbn; unfold U64_MAX; lia)
              ltac:(cbn; unfold U64_MAX; lia) ltac:(vm_compute; reflexivity))
    as [_ Hok].
  destruct (Hok ltac:(cbn; lia)) as [s' [Hs [Hv [Hl _]]]].
  exists s'. split; [exact Hs|]. rewrite Hv, Hl. split; reflexivity.
Defined.

(** ** Diamonds *)
Lemma classify_not_diamond x : x < 299 -> Airdrop.classify x <> Airdrop.Diamond.
Proof.
  intros Hx. unfold Airdrop.classify.
  repeat match goal with |- context [if ?b then _ else _] => destruct b eqn:? end;
    bools; try discriminate; lia.
Qed.

(** Below multiplier 100, the award roll never reaches 299. *)
Lemma award_roll_below_diamond m roll :
  50 <= m < 100 -> 0 <= roll < 1000 ->
  (roll - (1000 - Z.min (300 * m / 100) 1000)) * 300 / (300 * m / 100) < 299.
Proof.
  intros Hm Hr. rewrite effective_award_prob_eq.
  rewrite Z.min_l by lia.
  apply Z.div_lt_upper_bound; lia.
Qed.

Lemma gem_loop_no_diamond fuel roll_hash m accum rc gems a n g :
  50 <= m < 100 -> ~ In Airdrop.Diamond gems ->
  Airdrop.gem_loop fuel roll_hash m accum rc gems = Ok (a, n, g) ->
  ~ In Airdrop.Diamond g.
Proof.
  revert accum rc gems.
  induction fuel as [|fuel IH]; intros accum rc gems Hm Hg H; cbn [Airdrop.gem_loop] in H.
  - injection H as _ _ <-. exact Hg.
  - repeat match type of H with
           | context [if ?b then _ else _] =>
               lazymatch b with context [if _ then _ else _] => fail | _ =>
               destruct b eqn:?; try discriminate H end
           end; bools.
    all: try (injection H as _ _ <-; exact Hg).
    all: try (eapply IH; [exact Hm | | exact H]).
    all: try exact Hg.
    all: try (injection H as _ _ <-).
    all: rewrite in_app_iff; intros [Hin|Hin]; [exact (Hg Hin)|].
    all: destruct Hin as [Hin|[]].
    all: revert Hin; apply classify_not_diamond, award_roll_below_diamond;
         [exact Hm | apply Z.mod_pos_bound; lia].
Qed.

Lemma classify_diamond x : 299 <= x -> Airdrop.classify x = Airdrop.Diamond.
Proof.
  intros Hx. unfold Airdrop.classify.
  repeat match goal with |- context [if ?b then _ else _] => destruct b eqn:? end;
    bools; try reflexivity; lia.
Qed.

(** X14: below multiplier 100 the airdrop reward loop never awards a
    Diamond, while from multiplier 100 on the roll value 999 awards one. *)
Theorem diamond_iff_multiplier_100 m :
  50 <= m <= 300 ->
  (m < 100 -> forall roll_hash accum a n g,
     Airdrop.gem_rolls roll_hash m accum = Ok (a, n, g) -> ~ In Airdrop.Diamond g) /\
  (100 <= m ->
     Airdrop.gem_rolls (fun _ => 999) m Airdrop.THRESHOLD = Ok (0, 1, [Airdrop.Diamond])).
Proof.
  intros Hm. split.
  - intros Hlt roll_hash accum a n g H. unfold Airdrop.gem_rolls in H.
    exact (gem_loop_no_diamond _ roll_hash m accum 0 [] a n g ltac:(lia) (fun h => h) H).
  - intros Hge. unfold Airdrop.gem_rolls.
    replace (Z.to_nat (Airdrop.THRESHOLD / Airdrop.THRESHOLD)) with 1%nat by reflexivity.
    cbn [Airdrop.gem_loop].
    rewrite effective_award_prob_eq, Z.min_l by lia.
    change (999 mod 1000) with 999.
    rewrite classify_diamond by (apply Z.div_le_lower_bound; lia).
    unfold Airdrop.THRESHOLD, U32_MAX.
    repeat match goal with
           | |- context [if ?b then _ else _] =>
               lazymatch b with context [if _ then _ else _] => fail | _ =>
               destruct b eqn:?; bools; try (exfalso; lia) end
           end.
    reflexivity.
Qed.

Lemma diamond_iff_multiplier_100_witness :
  Airdrop.gem_rolls (fun _ => 999) 100 Airdrop.THRESHOLD = Ok (0, 1, [Airdrop.Diamond]) /\
  (forall a n g, Airdrop.gem_rolls (fun _ => 999) 99 Airdrop.THRESHOLD = Ok (a, n, g) ->
     ~ In Airdrop.Diamond g).
Proof.
  split.
  - exact (proj2 (diamond_iff_multiplier_100 100 ltac:(lia)) ltac:(lia)).
  - exact (proj1 (diamond_iff_multiplier_100 99 ltac:(lia)) ltac:(lia)
             (fun _ => 999) Airdrop.THRESHOLD).
Defined.

(** ** The award rate *)
Lemma award_rate_table :
  forallb (fun i => award_count (50 + Z.of_nat i) =? 3 * (50 + Z.of_nat i)) (seq 0 251)
  = true.
Proof. vm_compute. reflexivity. Qed.

(** X15: for every multiplier from 50 to 300, exactly [3 * multiplier] of
    the 1000 roll values award a gem in one pass of the reward loop. *)
Theorem award_rate m :
  50 <= m <= 300 -> award_count m = 3 * m.
Proof.
  intros Hm.
  assert (Hi : In (Z.to_nat (m - 50)) (seq 0 251)) by (apply in_seq; lia).
  pose proof (proj1 (forallb_forall _ (seq 0 251)) award_rate_table _ Hi) as Ht.
  cbv beta in Ht.
  rewrite Z2Nat.id in Ht by lia.
  replace (50 + (m - 50)) with m in Ht by lia.
  exact (proj1 (Z.eqb_eq _ _) Ht).
Qed.

Lemma award_rate_witness : award_count 100 = 300.
Proof. exact (award_rate 100 ltac:(lia)). Defined.


(** ** Profit batches *)
Lemma profit_items_checked f i remaining profits users s a s' :
  BatchProfit.profit_items f i remaining profits users s = Ok (a, s') ->
  forall j u, nth_error users j = Some u ->
  exists r, nth_error remaining (i + j) = Some r /\
            BatchProfit.key r = f u /\ BatchProfit.is_writable r = true.
Proof.
  revert i s a s'.
  induction users as [|u0 rest IH]; intros i s a s' H j u Hj.
  - destruct j; discriminate Hj.
  - cbn [BatchProfit.profit_items] in H. run H. pks.
    destruct j as [|j]; cbn in Hj.
    + injection Hj as <-. rewrite Nat.add_0_r. eauto.
    + rewrite <- Nat.add_succ_comm. eapply IH; eassumption.
Qed.

(** X16: a successful profit batch has checked the authority, the lengths,
    and that each user's remaining account is the user's vault PDA and
    writable. *)
Theorem batch_profit_validated f authority users profits remaining s s' :
  BatchProfit.batch_settle f authority users profits remaining s = Ok (tt, s') ->
  authority = AUTHORITY_PUBKEY /\
  List.length profits = List.length users /\
  List.length remaining = List.length users /\
  (forall i u, nth_error users i = Some u ->
     exists r, nth_error remaining i = Some r /\
               BatchProfit.key r = f u /\ BatchProfit.is_writable r = true).
Proof.
  intros H. unfold BatchProfit.batch_settle in H. run H. pks.
  repeat split; try congruence.
  intros i u Hi. exact (profit_items_checked f 0 remaining profits users _ _ _ H i u Hi).
Qed.

Lemma batch_profit_validated_witness :
  exists s', BatchProfit.batch_settle (fun u => "vault_" ++ u) AUTHORITY_PUBKEY
               ["bob"] [-500] profit_refs open_ledger = Ok (tt, s') /\
    exists r, nth_error profit_refs 0 = Some r /\
      BatchProfit.key r = "vault_bob" /\ BatchProfit.is_writable r = true.
Proof.
  eexists. split; [reflexivity|].
  destruct (batch_profit_validated (fun u => "vault_" ++ u) AUTHORITY_PUBKEY
              ["bob"] [-500] profit_refs open_ledger _ eq_refl) as (_ & _ & _ & H4).
  exact (H4 0%nat "bob" eq_refl).
Defined.


(** ** The v2 batch *)
Lemma settle_entry_delta vault stake payout s a s' :
  vault <> HOUSE -> 0 <= payout ->
  V2.settle_entry vault stake payout s = Ok (a, s') ->
  lamports s' vault = lamports s vault + (payout - stake) /\
  lamports s' HOUSE = lamports s HOUSE - (payout - stake) /\
  (forall k, k <> vault -> k <> HOUSE -> lamports s' k = lamports s k).
Proof.
  intros Hvh Hp H. unfold V2.settle_entry in H.
  run H; ok_inv H; upds; repeat split; intros; upds; lia.
Qed.

Lemma map_snd_combine_Forall (P : Z -> Prop) (l1 l2 : list Z) :
  Forall P l2 -> Forall P (map snd (combine l1 l2)).
Proof.
  revert l2. induction l1 as [|x l1 IH]; intros [|y l2] H; cbn; auto.
  inversion H; subst. constructor; auto.
Qed.

Lemma batch_items_delta i remaining items s a s' :
  ~ In HOUSE remaining -> Forall (fun p => 0 <= p) (map snd items) ->
  V2.batch_items i remaining items s = Ok (a, s') ->
  (forall k, k <> HOUSE ->
     lamports s' k = lamports s k + entry_delta k i remaining items) /\
  lamports s' HOUSE = lamports s HOUSE - house_delta items.
Proof.
  intros Hh. revert i s a s'.
  induction items as [|[stake payout] rest IH]; intros i s a s' Hp H.
  - cbn in H. ok_inv H. cbn. split; intros; lia.
  - inversion Hp as [|? ? Hp0 Hrest]; subst. cbn in Hp0.
    cbn [V2.batch_items] in H. unfold_core H. run_loop H.
    match goal with
    | E : nth_error remaining i = Some ?v, E2 : V2.settle_entry _ _ _ _ = Ok _ |- _ =>
        assert (Hv : v <> HOUSE) by (intros ->; apply Hh; eapply nth_error_In; eassumption);
        destruct (settle_entry_delta _ _ _ _ _ _ Hv Hp0 E2) as (D1 & D2 & D3);
        destruct (IH (S i) _ _ _ Hrest H) as [R1 R2];
        cbn [entry_delta house_delta]; rewrite E
    end.
    split; [|lia].
    intros k Hk. rewrite R1 by exact Hk.
    destruct (pk_eqb _ k) eqn:Ek; pks.
    + rewrite D1. lia.
    + rewrite D3 by congruence. lia.
Qed.

(** X17: a successful v2 [batch_settle] over vaults other than the house
    adds to each account the sum of [payout - stake] over the entries naming
    it (entries naming one vault accumulate) and takes the total of [payout
    - stake] from the house. *)
Theorem v2_batch_settle_effect now authority stakes payouts bet_ids game_ids
  gem_datas remaining s s' :
  ~ In HOUSE remaining -> Forall (fun p => 0 <= p) payouts ->
  V2.batch_settle now authority stakes payouts bet_ids game_ids gem_datas
    remaining s = Ok (tt, s') ->
  (forall k, k <> HOUSE ->
     lamports s' k = lamports s k + entry_delta k 0 remaining (combine stakes payouts)) /\
  lamports s' HOUSE = lamports s HOUSE - house_delta (combine stakes payouts).
Proof.
  intros Hh Hp H. unfold V2.batch_settle in H. run_gated H.
  all: try (eapply batch_items_delta; [exact Hh | apply map_snd_combine_Forall; exact Hp | eassumption]).
  apply pause_gate_state in E6. subst l.
  eapply batch_items_delta; [exact Hh | apply map_snd_combine_Forall; exact Hp | exact H].
Qed.

Lemma v2_batch_settle_effect_witness :
  exists s', V2.batch_settle 10 ADMIN [1000; 2000] [3000; 500] ["b1"; "b2"] [1; 2]
               [gems7; gems7] ["vault_bob"; "vault_bob"] open_ledger = Ok (tt, s') /\
    lamports s' "vault_bob" =
      lamports open_ledger "vault_bob" +
      entry_delta "vault_bob" 0 ["vault_bob"; "vault_bob"] (combine [1000; 2000] [3000; 500]) /\
    lamports s' HOUSE =
      lamports open_ledger HOUSE - house_delta (combine [1000; 2000] [3000; 500]).
Proof.
  eexists. split; [reflexivity|].
  destruct (v2_batch_settle_effect 10 ADMIN [1000; 2000] [3000; 500] ["b1"; "b2"] [1; 2]
              [gems7; gems7] ["vault_bob"; "vault_bob"] open_ledger _
              ltac:(cbn; intuition discriminate)
              ltac:(repeat constructor; lia) eq_refl) as [H1 H2].
  split; [apply H1; discriminate | exact H2].
Defined.

